(** * Consistent hashing with bounded loads: a shallow embedding of
      [core/algorithm.go]

    The development follows the Go source function by function.

    - [Consistent] is the struct of the same name; the pointer map
      [hosts] is a finite map from host names to [Host] records (each
      [*Host] is reachable only through that map, so updating through the
      pointer is updating the entry), [virt2host] is a finite map from
      virtual-node hashes to host names and [ring] is the slice of hashes.
      The constructor and the struct spell some fields differently
      ([hostMap]/[hosts], [replicaHostMap]/[virt2host],
      [sortedHostsHashSet]/[ring]); they are identified here, as are
      [hostReplicaNum]/[hostReplicaFormat], [loadBound]/[LoadBound] and
      [loadBoundFactor]/[LoadBoundFactor].
    - Go's [int] and [int64] are integers of [Z]; arithmetic on the [int64]
      load counters goes through [wrap64].  A [uint64] hash is a [Z]; hashes
      are only compared, never computed with.
    - [float64] is idealised as the rationals [Q].  Every value the code
      converts or multiplies is an integer or an integer times 5/4, so the
      idealisation is exact as long as the counters stay below 2^50 in
      magnitude; the theorems that depend on it carry that bound.
    - A call returns the state it leaves behind together with a [result]:
      a value, one of the two errors of [core/error.go], a run-time panic,
      or [OutOfFuel] for a loop that has not finished within the number of
      iterations it was given.
    - The read/write lock and the atomic adds are not modelled: every
      operation is one step of a sequential state machine. *)

From Stdlib Require Import ZArith QArith Qround Lia DecimalString.
From Stdlib.Strings Require Byte.
From stdpp Require Import gmap strings list fin_maps sorting vector.

Open Scope Z_scope.

(** ** Errors, panics and results *)

(** [core/error.go] *)
Inductive error : Type :=
| ErrHostAlreadyExists
| ErrHostNotFound.

(** The run-time panics the code can raise. *)
Inductive panic : Type :=
| IndexOutOfRange
| NilDereference
| DivideByZero.

Inductive result (A : Type) : Type :=
| Ok (a : A)
| Error (e : error)
| Panics (p : panic)
| OutOfFuel.

Arguments Ok {A} a.
Arguments Error {A} e.
Arguments Panics {A} p.
Arguments OutOfFuel {A}.

Definition result_bind {A B : Type} (r : result A) (k : A → result B) : result B :=
  match r with
  | Ok a => k a
  | Error e => Error e
  | Panics p => Panics p
  | OutOfFuel => OutOfFuel
  end.

#[global] Instance result_ret : MRet result := @Ok.
#[global] Instance result_mbind : MBind result := λ A B k r, result_bind r k.

(** A call has returned normally or with an error value (it has neither
    panicked nor failed to finish). *)
Definition returns {A : Type} (r : result A) : Prop :=
  match r with
  | Ok _ | Error _ => True
  | Panics _ | OutOfFuel => False
  end.

(** ** Machine integers and floats *)

Definition wrap64 (z : Z) : Z := (z + 2 ^ 63) `mod` 2 ^ 64 - 2 ^ 63.

(** [atomic.AddInt64] and [+]/[-] on [int64]. *)
Definition addInt64 (x delta : Z) : Z := wrap64 (x + delta).

(** Integer division, which truncates towards zero and panics on zero. *)
Definition divInt64 (x y : Z) : result Z :=
  if y =? 0 then Panics DivideByZero else Ok (wrap64 (x ÷ y)).

(** [s[i]] on a slice. *)
Definition index {A : Type} (s : list A) (i : Z) : result A :=
  if (0 <=? i) && (i <? Z.of_nat (length s))
  then match s !! Z.to_nat i with
       | Some x => Ok x
       | None => Panics IndexOutOfRange
       end
  else Panics IndexOutOfRange.

Definition float64_of_int64 (z : Z) : Q := inject_Z z.

Definition math_Ceil (x : Q) : Q := inject_Z (Qceiling x).

(** [int64(x)] on a float: truncation towards zero. *)
Definition int64_of_float64 (x : Q) : Z :=
  if Qle_bool 0 x then Qfloor x else Qceiling x.

(** The range of counters on which every [float64] operation of the code
    is exact. *)
Definition exact_range (z : Z) : Prop := - 2 ^ 50 < z < 2 ^ 50.

(** ** The data model *)

Record Host : Type := mkHost {
  Name : string;
  LoadBound : Z
}.

Record Consistent : Type := mkConsistent {
  replicaNum : Z;
  totalLoad : Z;
  hashFunc : string → Z;
  hosts : gmap string Host;
  virt2host : gmap Z string;
  ring : list Z
}.

Definition set_totalLoad (t : Z) (c : Consistent) : Consistent :=
  mkConsistent (replicaNum c) t (hashFunc c) (hosts c) (virt2host c) (ring c).

Definition set_hosts (h : gmap string Host) (c : Consistent) : Consistent :=
  mkConsistent (replicaNum c) (totalLoad c) (hashFunc c) h (virt2host c) (ring c).

Definition set_virt2host (v : gmap Z string) (c : Consistent) : Consistent :=
  mkConsistent (replicaNum c) (totalLoad c) (hashFunc c) (hosts c) v (ring c).

Definition set_ring (r : list Z) (c : Consistent) : Consistent :=
  mkConsistent (replicaNum c) (totalLoad c) (hashFunc c) (hosts c) (virt2host c) r.

Definition defaultReplicaNum : Z := 10.

Definition LoadBoundFactor : Q := 1 # 4.

(** [fmt.Sprintf(hostReplicaFormat, hostName, i)] with the format [%s%d]. *)
Definition hostReplicaFormat (hostName : string) (i : Z) : string :=
  hostName +:+ NilZero.string_of_int (Z.to_int i).

(** ** The default hash and the constructor

    [crypto/sha512] belongs to the Go library, not to this repository: the
    digest function is a parameter of the two definitions that use it. *)

Section WithSha512.

(** [sha512.Sum512], whose result is a [[64]byte]. *)
Variable Sum512 : list Byte.byte → vec Byte.byte 64.

Definition byte_val (b : Byte.byte) : Z := Z.of_N (Byte.to_N b).

(** [binary.LittleEndian.Uint64(b)]: it reads [b[7]] first, as a bounds
    check, and then assembles the eight bytes. *)
Definition LittleEndian_Uint64 (b : list Byte.byte) : result Z :=
  _ ← index b 7;
  b0 ← index b 0; b1 ← index b 1; b2 ← index b 2; b3 ← index b 3;
  b4 ← index b 4; b5 ← index b 5; b6 ← index b 6; b7 ← index b 7;
  Ok (Z.lor (byte_val b0) (Z.lor (Z.shiftl (byte_val b1) 8)
     (Z.lor (Z.shiftl (byte_val b2) 16) (Z.lor (Z.shiftl (byte_val b3) 24)
     (Z.lor (Z.shiftl (byte_val b4) 32) (Z.lor (Z.shiftl (byte_val b5) 40)
     (Z.lor (Z.shiftl (byte_val b6) 48) (Z.shiftl (byte_val b7) 56)))))))).

(** [out := sha512.Sum512([]byte(key)); binary.LittleEndian.Uint64(out[:])].
    The slice [out[:]] has 64 elements, so the conversion cannot panic
    (lemma [defaultHashFunc_digest]); the last branch is never taken. *)
Definition defaultHashFunc (key : string) : Z :=
  let out := Sum512 (String.list_byte_of_string key) in
  match LittleEndian_Uint64 (vec_to_list out) with
  | Ok h => h
  | _ => 0
  end.

(** [New(replicaNum, hashFunc)]; a [nil] function is [None]. *)
Definition New (replicaNum : Z) (hashFunc : option (string → Z)) : Consistent :=
  let replicaNum := if replicaNum <=? 0 then defaultReplicaNum else replicaNum in
  let hashFunc := match hashFunc with
                  | None => defaultHashFunc
                  | Some f => f
                  end in
  mkConsistent replicaNum 0 hashFunc ∅ ∅ [].

End WithSha512.

(** ** The Go library's sorting and searching *)

Definition len {A : Type} (s : list A) : Z := Z.of_nat (length s).

(** [sort.Slice(c.ring, less)] with [less] the order [<] on [uint64]:
    the ascending rearrangement of the slice. *)
Definition sort_Slice (s : list Z) : list Z := merge_sort Z.le s.

(** [sort.Search(n, f)]: the library's binary search,
    [i, j := 0, n; for i < j { h := int(uint(i+j) >> 1);
     if !f(h) { i = h + 1 } else { j = h } }; return i].
    The interval shrinks at every iteration, so [n] iterations are enough
    (lemma [sort_Search_loop_total]). *)
Fixpoint sort_Search_loop (fuel : nat) (f : Z → result bool) (i j : Z) : result Z :=
  if i <? j then
    match fuel with
    | O => OutOfFuel
    | S fuel =>
        let h := Z.shiftr (i + j) 1 in
        b ← f h;
        if negb b then sort_Search_loop fuel f (h + 1) j
        else sort_Search_loop fuel f i h
    end
  else Ok i.

Definition sort_Search (n : Z) (f : Z → result bool) : result Z :=
  sort_Search_loop (Z.to_nat n) f 0 n.

(** ** The operations of [Consistent] *)

Definition RegisterHost (c : Consistent) (hostName : string)
  : Consistent * result unit :=
  match hosts c !! hostName with
  | Some _ => (c, Error ErrHostAlreadyExists)
  | None =>
      let c := set_hosts (<[hostName := mkHost hostName 0]> (hosts c)) c in
      let c :=
        foldl (λ c i,
                 let hashedIdx := hashFunc c (hostReplicaFormat hostName i) in
                 let c := set_virt2host (<[hashedIdx := hostName]> (virt2host c)) c in
                 set_ring (ring c ++ [hashedIdx]) c)
              c (seqZ 0 (replicaNum c)) in
      (set_ring (sort_Slice (ring c)) c, Ok tt)
  end.

(** The loop of [delHashIndex]; [idx] is returned as found, [-1] when the
    value is absent.  [delHashIndex] runs it for as many iterations as the
    ring has entries, which is enough (lemma [delHashIndex_loop_total]). *)
Fixpoint delHashIndex_loop (fuel : nat) (ring : list Z) (val idx l r : Z)
  : result Z :=
  if l <=? r then
    match fuel with
    | O => OutOfFuel
    | S fuel =>
        let m := (l + r) ÷ 2 in
        x ← index ring m;
        if x =? val then Ok m
        else if x <? val then delHashIndex_loop fuel ring val idx (m + 1) r
        else if x >? val then delHashIndex_loop fuel ring val idx l (m - 1)
        else delHashIndex_loop fuel ring val idx l r
    end
  else Ok idx.

Definition delHashIndex (c : Consistent) (val : Z) : Consistent * result unit :=
  match delHashIndex_loop (length (ring c)) (ring c) val (-1) 0 (len (ring c) - 1) with
  | Ok idx =>
      if negb (idx =? -1)
      then (set_ring (take (Z.to_nat idx) (ring c) ++ drop (Z.to_nat (idx + 1)) (ring c)) c,
            Ok tt)
      else (c, Ok tt)
  | Error e => (c, Error e)
  | Panics p => (c, Panics p)
  | OutOfFuel => (c, OutOfFuel)
  end.

(** [for i := 0; i < c.replicaNum; i++ { ...; c.delHashIndex(hashedIdx) }] *)
Fixpoint UnregisterHost_loop (c : Consistent) (hostName : string) (replicas : list Z)
  : Consistent * result unit :=
  match replicas with
  | [] => (c, Ok tt)
  | i :: replicas =>
      let hashedIdx := hashFunc c (hostReplicaFormat hostName i) in
      match delHashIndex c hashedIdx with
      | (c, Ok _) => UnregisterHost_loop c hostName replicas
      | (c, r) => (c, r)
      end
  end.

Definition UnregisterHost (c : Consistent) (hostName : string)
  : Consistent * result unit :=
  match hosts c !! hostName with
  | None => (c, Error ErrHostNotFound)
  | Some _ =>
      let c := set_hosts (delete hostName (hosts c)) c in
      UnregisterHost_loop c hostName (seqZ 0 (replicaNum c))
  end.

Definition UpdateLoad (c : Consistent) (host : string) (load : Z) : Consistent :=
  match hosts c !! host with
  | None => c
  | Some h =>
      let c := set_totalLoad (addInt64 (addInt64 (totalLoad c) (- LoadBound h)) load) c in
      set_hosts (<[host := mkHost (Name h) load]> (hosts c)) c
  end.

(** The keys of the map, in an order the language leaves open. *)
Definition Hosts (c : Consistent) : Consistent * list string :=
  (c, (map_to_list (hosts c)).*1).

Definition searchKey (c : Consistent) (key : Z) : result Z :=
  idx ← sort_Search (len (ring c))
        (λ i, x ← index (ring c) i; Ok (x >=? key));
  Ok (if len (ring c) <=? idx then 0 else idx).

Definition GetHost (c : Consistent) (key : string) : Consistent * result string :=
  let hashedKey := hashFunc c key in
  (c, idx ← searchKey c hashedKey;
      v ← index (ring c) idx;
      Ok (default "" (virt2host c !! v))).

Definition checkLoadCapacity (c : Consistent) (host : string)
  : Consistent * result bool :=
  let c := if totalLoad c <? 0 then set_totalLoad 0 c else c in
  (c, q ← divInt64 (addInt64 (totalLoad c) 1) (Z.of_nat (size (hosts c)));
      let avgLoadPerNode := float64_of_int64 q in
      let avgLoadPerNode :=
        if Qeq_bool avgLoadPerNode 0 then 1%Q else avgLoadPerNode in
      let avgLoadPerNode := math_Ceil (avgLoadPerNode * (1 + LoadBoundFactor)) in
      match hosts c !! host with
      | None => Error ErrHostNotFound
      | Some candidateHost =>
          if Qle_bool (float64_of_int64 (LoadBound candidateHost) + 1) avgLoadPerNode
          then Ok true
          else Ok false
      end).

(** The [for { ... }] of [GetHostCapacious], started at ring index [i]. *)
Fixpoint GetHostCapacious_loop (fuel : nat) (c : Consistent) (i : Z)
  : Consistent * result string :=
  match fuel with
  | O => (c, OutOfFuel)
  | S fuel =>
      match index (ring c) i with
      | Ok v =>
          let host := default "" (virt2host c !! v) in
          match checkLoadCapacity c host with
          | (c, Ok loadChecked) =>
              if loadChecked then (c, Ok host)
              else
                let i := i + 1 in
                let i := if Z.of_nat (size (virt2host c)) <=? i then 0 else i in
                GetHostCapacious_loop fuel c i
          | (c, Error e) => (c, Error e)
          | (c, Panics p) => (c, Panics p)
          | (c, OutOfFuel) => (c, OutOfFuel)
          end
      | Error e => (c, Error e)
      | Panics p => (c, Panics p)
      | OutOfFuel => (c, OutOfFuel)
      end
  end.

(** [GetHostCapacious], its loop run for at most [fuel] iterations. *)
Definition GetHostCapacious (fuel : nat) (c : Consistent) (key : string)
  : Consistent * result string :=
  if Z.of_nat (size (virt2host c)) =? 0 then (c, Error ErrHostNotFound)
  else
    let hashedKey := hashFunc c key in
    match searchKey c hashedKey with
    | Ok idx => GetHostCapacious_loop fuel c idx
    | Error e => (c, Error e)
    | Panics p => (c, Panics p)
    | OutOfFuel => (c, OutOfFuel)
    end.

Definition Inc (c : Consistent) (hostName : string) : Consistent * result unit :=
  match hosts c !! hostName with
  | None => (c, Panics NilDereference)
  | Some h =>
      let c := set_hosts (<[hostName := mkHost (Name h) (addInt64 (LoadBound h) 1)]>
                            (hosts c)) c in
      (set_totalLoad (addInt64 (totalLoad c) 1) c, Ok tt)
  end.

Definition Done (c : Consistent) (host : string) : Consistent :=
  match hosts c !! host with
  | None => c
  | Some h =>
      let c := set_hosts (<[host := mkHost (Name h) (addInt64 (LoadBound h) (-1))]>
                            (hosts c)) c in
      set_totalLoad (addInt64 (totalLoad c) (-1)) c
  end.

Definition GetLoads (c : Consistent) : Consistent * gmap string Z :=
  (c, LoadBound <$> hosts c).

Definition MaxLoad (c : Consistent) : Consistent * result Z :=
  let c := if totalLoad c =? 0 then set_totalLoad 1 c else c in
  (c, q ← divInt64 (totalLoad c) (Z.of_nat (size (hosts c)));
      let avgLoadPerNode := float64_of_int64 q in
      let avgLoadPerNode :=
        if Qeq_bool avgLoadPerNode 0 then 1%Q else avgLoadPerNode in
      let avgLoadPerNode := math_Ceil (avgLoadPerNode * (1 + LoadBoundFactor)) in
      Ok (int64_of_float64 avgLoadPerNode)).

(** ** Instances used to run the model

    A hash function a caller may pass to [New] (the sum of the bytes of the
    key), and a digest function to stand for [sha512.Sum512] where the
    constructor is given a hash function and never calls it. *)

Definition byte_sum (key : string) : Z :=
  foldr (λ b acc, Z.of_N (Byte.to_N b) + acc) 0 (String.list_byte_of_string key).

Definition zero_digest (msg : list Byte.byte) : vec Byte.byte 64 :=
  vreplicate 64 Byte.x00.

(** * Basic facts *)

Lemma wrap64_small (z : Z) : - 2 ^ 63 ≤ z < 2 ^ 63 → wrap64 z = z.
Proof.
  intros Hz. unfold wrap64.
  rewrite Z.mod_small; lia.
Qed.

Lemma addInt64_small (x d : Z) : - 2 ^ 63 ≤ x + d < 2 ^ 63 → addInt64 x d = x + d.
Proof. apply wrap64_small. Qed.

Lemma index_lookup {A : Type} (s : list A) (i : Z) (x : A) :
  0 ≤ i → s !! Z.to_nat i = Some x → index s i = Ok x.
Proof.
  intros Hi Hx. unfold index.
  pose proof (lookup_lt_Some _ _ _ Hx) as Hlt.
  replace (0 <=? i) with true by (symmetry; apply Z.leb_le; lia).
  replace (i <? Z.of_nat (length s)) with true by (symmetry; apply Z.ltb_lt; lia).
  simpl. by rewrite Hx.
Qed.

Lemma index_in_range {A : Type} (s : list A) (i : Z) :
  0 ≤ i < len s → ∃ x, s !! Z.to_nat i = Some x ∧ index s i = Ok x.
Proof.
  intros Hi. unfold len in Hi.
  destruct (lookup_lt_is_Some_2 s (Z.to_nat i)) as [x Hx]; [lia|].
  exists x. split; [done|]. apply index_lookup; [lia|done].
Qed.

Lemma index_out_of_range {A : Type} (s : list A) (i : Z) :
  i < 0 ∨ len s ≤ i → index s i = Panics IndexOutOfRange.
Proof.
  intros Hi. unfold index, len in *.
  destruct (0 <=? i) eqn:H0; [|done].
  destruct (i <? Z.of_nat (length s)) eqn:H1; [|done].
  apply Z.leb_le in H0. apply Z.ltb_lt in H1. lia.
Qed.

Lemma index_Ok_inv {A : Type} (s : list A) (i : Z) (x : A) :
  index s i = Ok x → 0 ≤ i < len s ∧ s !! Z.to_nat i = Some x.
Proof.
  unfold index, len. intros H.
  destruct (0 <=? i) eqn:H0; [|done].
  destruct (i <? Z.of_nat (length s)) eqn:H1; [|done].
  apply Z.leb_le in H0. apply Z.ltb_lt in H1. simpl in H.
  destruct (s !! Z.to_nat i) eqn:Hs; [|done].
  split; [lia|congruence].
Qed.

Lemma index_not_other {A : Type} (s : list A) (i : Z) :
  (∃ x, index s i = Ok x) ∨ index s i = Panics IndexOutOfRange.
Proof.
  destruct (decide (0 ≤ i < len s)) as [Hi|Hi].
  - left. destruct (index_in_range s i Hi) as (x & _ & Hx). eauto.
  - right. apply index_out_of_range. lia.
Qed.

(** ** The default hash *)

Lemma byte_val_range (b : Byte.byte) : 0 ≤ byte_val b < 256.
Proof.
  unfold byte_val. pose proof (Byte.to_N_bounded b). lia.
Qed.

(** The number a byte sequence denotes, least significant byte first. *)
Fixpoint little_endian (bs : list Byte.byte) : Z :=
  match bs with
  | [] => 0
  | b :: bs => byte_val b + 256 * little_endian bs
  end.

Lemma little_endian_range (bs : list Byte.byte) :
  0 ≤ little_endian bs < 256 ^ len bs.
Proof.
  unfold len. induction bs as [|b bs IH]; simpl length.
  - simpl. lia.
  - rewrite Nat2Z.inj_succ, Z.pow_succ_r by lia.
    pose proof (byte_val_range b). simpl little_endian. lia.
Qed.

Lemma lor_disjoint (a b n : Z) :
  0 ≤ n → 0 ≤ a < 2 ^ n → Z.lor a (b * 2 ^ n) = a + b * 2 ^ n.
Proof.
  intros Hn Ha.
  assert (Hland : Z.land a (b * 2 ^ n) = 0).
  { apply Z.bits_inj'. intros k Hk. rewrite Z.land_spec, Z.bits_0.
    destruct (Z.lt_ge_cases k n) as [Hlt|Hge].
    - rewrite Z.mul_pow2_bits_low by lia. apply andb_false_r.
    - destruct (Z.eq_dec a 0) as [->|Hne]; [by rewrite Z.bits_0|].
      rewrite (Z.bits_above_log2 a k); [done|lia|].
      apply Z.log2_lt_pow2; [lia|]. 
      eapply Z.lt_le_trans; [apply Ha|]. apply Z.pow_le_mono_r; lia. }
  by rewrite <- (Z.lxor_lor _ _ Hland), (Z.add_nocarry_lxor _ _ Hland).
Qed.

Lemma LittleEndian_Uint64_value (b : list Byte.byte) :
  8 ≤ len b → LittleEndian_Uint64 b = Ok (little_endian (take 8 b)).
Proof.
  unfold len. intros Hlen.
  destruct b as [|b0 [|b1 [|b2 [|b3 [|b4 [|b5 [|b6 [|b7 b]]]]]]]];
    simpl in Hlen; try lia.
  unfold LittleEndian_Uint64.
  rewrite (index_lookup _ 7 b7), (index_lookup _ 0 b0), (index_lookup _ 1 b1),
    (index_lookup _ 2 b2), (index_lookup _ 3 b3), (index_lookup _ 4 b4),
    (index_lookup _ 5 b5), (index_lookup _ 6 b6) by (done || lia).
  cbn [mbind result_mbind result_bind]. f_equal.
  cbn [take little_endian].
  pose proof (byte_val_range b0). pose proof (byte_val_range b1).
  pose proof (byte_val_range b2). pose proof (byte_val_range b3).
  pose proof (byte_val_range b4). pose proof (byte_val_range b5).
  pose proof (byte_val_range b6). pose proof (byte_val_range b7).
  rewrite !Z.shiftl_mul_pow2 by lia.
  rewrite (lor_disjoint (byte_val b6 * 2 ^ 48) (byte_val b7) 56) by lia.
  replace (byte_val b6 * 2 ^ 48 + byte_val b7 * 2 ^ 56)
    with ((byte_val b6 + byte_val b7 * 2 ^ 8) * 2 ^ 48) by lia.
  rewrite (lor_disjoint (byte_val b5 * 2 ^ 40) _ 48) by lia.
  replace (byte_val b5 * 2 ^ 40 + (byte_val b6 + byte_val b7 * 2 ^ 8) * 2 ^ 48)
    with ((byte_val b5 + byte_val b6 * 2 ^ 8 + byte_val b7 * 2 ^ 16) * 2 ^ 40) by lia.
  rewrite (lor_disjoint (byte_val b4 * 2 ^ 32) _ 40) by lia.
  replace (byte_val b4 * 2 ^ 32
           + (byte_val b5 + byte_val b6 * 2 ^ 8 + byte_val b7 * 2 ^ 16) * 2 ^ 40)
    with ((byte_val b4 + byte_val b5 * 2 ^ 8 + byte_val b6 * 2 ^ 16
           + byte_val b7 * 2 ^ 24) * 2 ^ 32) by lia.
  rewrite (lor_disjoint (byte_val b3 * 2 ^ 24) _ 32) by lia.
  replace (byte_val b3 * 2 ^ 24
           + (byte_val b4 + byte_val b5 * 2 ^ 8 + byte_val b6 * 2 ^ 16
              + byte_val b7 * 2 ^ 24) * 2 ^ 32)
    with ((byte_val b3 + byte_val b4 * 2 ^ 8 + byte_val b5 * 2 ^ 16
           + byte_val b6 * 2 ^ 24 + byte_val b7 * 2 ^ 32) * 2 ^ 24) by lia.
  rewrite (lor_disjoint (byte_val b2 * 2 ^ 16) _ 24) by lia.
  replace (byte_val b2 * 2 ^ 16
           + (byte_val b3 + byte_val b4 * 2 ^ 8 + byte_val b5 * 2 ^ 16
              + byte_val b6 * 2 ^ 24 + byte_val b7 * 2 ^ 32) * 2 ^ 24)
    with ((byte_val b2 + byte_val b3 * 2 ^ 8 + byte_val b4 * 2 ^ 16
           + byte_val b5 * 2 ^ 24 + byte_val b6 * 2 ^ 32
           + byte_val b7 * 2 ^ 40) * 2 ^ 16) by lia.
  rewrite (lor_disjoint (byte_val b1 * 2 ^ 8) _ 16) by lia.
  replace (byte_val b1 * 2 ^ 8
           + (byte_val b2 + byte_val b3 * 2 ^ 8 + byte_val b4 * 2 ^ 16
              + byte_val b5 * 2 ^ 24 + byte_val b6 * 2 ^ 32
              + byte_val b7 * 2 ^ 40) * 2 ^ 16)
    with ((byte_val b1 + byte_val b2 * 2 ^ 8 + byte_val b3 * 2 ^ 16
           + byte_val b4 * 2 ^ 24 + byte_val b5 * 2 ^ 32
           + byte_val b6 * 2 ^ 40 + byte_val b7 * 2 ^ 48) * 2 ^ 8) by lia.
  rewrite (lor_disjoint (byte_val b0) _ 8) by lia.
  rewrite take_0. cbn [little_endian]. lia.
Qed.

Lemma defaultHashFunc_digest (Sum512 : list Byte.byte → vec Byte.byte 64) (key : string) :
  let out := Sum512 (String.list_byte_of_string key) in
  LittleEndian_Uint64 (vec_to_list out) = Ok (defaultHashFunc Sum512 key)
  ∧ defaultHashFunc Sum512 key = little_endian (take 8 (vec_to_list out)).
Proof.
  intros out. unfold defaultHashFunc. fold out.
  rewrite LittleEndian_Uint64_value; [done|].
  unfold len. rewrite length_vec_to_list. lia.
Qed.

(** ** Registration *)

(** The virtual-node hashes of a host: [hashFunc(hostName || i)] for
    [i] in [0, replicaNum). *)
Definition replicaHashes (c : Consistent) (hostName : string) : list Z :=
  (λ i, hashFunc c (hostReplicaFormat hostName i)) <$> seqZ 0 (replicaNum c).

Lemma RegisterHost_loop_spec (hostName : string) (l : list Z) (c : Consistent) :
  foldl (λ c i,
           let hashedIdx := hashFunc c (hostReplicaFormat hostName i) in
           let c := set_virt2host (<[hashedIdx := hostName]> (virt2host c)) c in
           set_ring (ring c ++ [hashedIdx]) c) c l
  = let hs := (λ i, hashFunc c (hostReplicaFormat hostName i)) <$> l in
    set_ring (ring c ++ hs)
      (set_virt2host (foldl (λ m v, <[v := hostName]> m) (virt2host c) hs) c).
Proof.
  revert c. induction l as [|i l IH]; intros c.
  - destruct c. cbn. unfold set_ring, set_virt2host. cbn. by rewrite app_nil_r.
  - cbn [foldl]. rewrite IH. destruct c. cbn.
    unfold set_ring, set_virt2host. cbn. by rewrite <- app_assoc.
Qed.

Lemma RegisterHost_fresh (c : Consistent) (hostName : string) :
  hosts c !! hostName = None →
  RegisterHost c hostName
  = (mkConsistent (replicaNum c) (totalLoad c) (hashFunc c)
       (<[hostName := mkHost hostName 0]> (hosts c))
       (foldl (λ m v, <[v := hostName]> m) (virt2host c) (replicaHashes c hostName))
       (sort_Slice (ring c ++ replicaHashes c hostName)),
     Ok tt).
Proof.
  intros Hfresh. unfold RegisterHost. rewrite Hfresh.
  rewrite RegisterHost_loop_spec. destruct c. reflexivity.
Qed.

Lemma RegisterHost_known (c : Consistent) (hostName : string) :
  is_Some (hosts c !! hostName) →
  RegisterHost c hostName = (c, Error ErrHostAlreadyExists).
Proof. intros [h Hh]. unfold RegisterHost. by rewrite Hh. Qed.

Lemma sort_Slice_Permutation (s : list Z) : sort_Slice s ≡ₚ s.
Proof. apply merge_sort_Permutation. Qed.

Lemma sort_Slice_Sorted (s : list Z) : Sorted Z.le (sort_Slice s).
Proof. apply (Sorted_merge_sort Z.le). Qed.

Lemma replicaHashes_length (c : Consistent) (hostName : string) :
  0 ≤ replicaNum c → len (replicaHashes c hostName) = replicaNum c.
Proof.
  intros Hr. unfold len, replicaHashes.
  rewrite length_fmap, length_seqZ. lia.
Qed.

(** * The constructor *)

(** C10.  [New] replaces a replica count that is zero or negative by 10,
    so that a host registered on the new instance gets 10 virtual nodes;
    it replaces a nil hash function by the default one, whose value is the
    number that the first eight bytes of the SHA-512 digest of the key
    denote in little-endian order, a 64-bit unsigned integer; and the
    instance starts with no load, no host, and an empty ring and map. *)
Theorem New_clamps_to_defaults
    (Sum512 : list Byte.byte → vec Byte.byte 64)
    (r : Z) (f : option (string → Z)) (key hostName : string) :
  let c := New Sum512 r f in
  (r ≤ 0 →
     replicaNum c = 10
     ∧ len (ring (RegisterHost c hostName).1) = 10)
  ∧ (let digest := vec_to_list (Sum512 (String.list_byte_of_string key)) in
     f = None →
     hashFunc c key = little_endian (take 8 digest)
     ∧ 0 ≤ hashFunc c key < 2 ^ 64)
  ∧ totalLoad c = 0
  ∧ hosts c = ∅
  ∧ virt2host c = ∅
  ∧ ring c = [].
Proof.
  intros c. repeat split; try reflexivity.
  - unfold c, New. by replace (r <=? 0) with true by (symmetry; apply Z.leb_le; lia).
  - assert (Hr : replicaNum c = 10).
    { unfold c, New. by replace (r <=? 0) with true by (symmetry; apply Z.leb_le; lia). }
    rewrite RegisterHost_fresh by (unfold c, New; cbn; apply lookup_empty).
    cbn [fst ring]. unfold len.
    rewrite (Permutation_length (sort_Slice_Permutation _)).
    rewrite length_app. 
    pose proof (replicaHashes_length c hostName) as Hlen. unfold len in Hlen.
    change (length (ring c)) with 0%nat. lia.
  - subst f. unfold c, New. cbn [hashFunc].
    apply (defaultHashFunc_digest Sum512 key).
  - subst f. unfold c, New. cbn [hashFunc].
    destruct (defaultHashFunc_digest Sum512 key) as [_ ->].
    apply little_endian_range.
  - subst f. unfold c, New. cbn [hashFunc].
    destruct (defaultHashFunc_digest Sum512 key) as [_ ->].
    pose proof (little_endian_range
                  (take 8 (vec_to_list (Sum512 (String.list_byte_of_string key))))) as Hr.
    unfold len in Hr. rewrite length_take, length_vec_to_list in Hr.
    change (Z.of_nat (8 `min` 64)) with 8 in Hr. lia.
Qed.

Lemma New_clamps_to_defaults_witness :
  let c := New zero_digest 0 None in
  (replicaNum c = 10 ∧ len (ring (RegisterHost c "a").1) = 10)
  ∧ (hashFunc c "k" = 0 ∧ 0 ≤ hashFunc c "k" < 2 ^ 64).
Proof.
  pose proof (New_clamps_to_defaults zero_digest 0 None "k" "a") as (H1 & H2 & _).
  split.
  - apply H1. lia.
  - apply H2. reflexivity.
Defined.

(** * Lookup on an empty ring *)

Lemma searchKey_empty (c : Consistent) (key : Z) :
  ring c = [] → searchKey c key = Ok 0.
Proof. intros Hring. unfold searchKey. by rewrite Hring. Qed.

(** The guarded sibling: on an instance without virtual nodes
    [GetHostCapacious] returns [ErrHostNotFound]. *)
Lemma GetHostCapacious_no_nodes (fuel : nat) (c : Consistent) (key : string) :
  virt2host c = ∅ → GetHostCapacious fuel c key = (c, Error ErrHostNotFound).
Proof. intros Hv. unfold GetHostCapacious. by rewrite Hv. Qed.

(** C5.  [GetHost] has no guard for the empty ring.  On every state whose
    ring is empty, and so on every new instance, it reads [c.ring[0]] and
    panics with an index out of range; it does not return an error. *)
Theorem GetHost_empty_ring_panics
    (Sum512 : list Byte.byte → vec Byte.byte 64)
    (c : Consistent) (r : Z) (f : option (string → Z)) (key : string) :
  (GetHost (set_ring [] c) key).2 = Panics IndexOutOfRange
  ∧ (GetHost (New Sum512 r f) key).2 = Panics IndexOutOfRange
  ∧ (∀ fuel, (GetHostCapacious fuel (New Sum512 r f) key).2 = Error ErrHostNotFound).
Proof. by repeat split. Qed.

(** * Load accounting *)

(** The sum of the [LoadBound] counters of the registered hosts. *)
Definition sumLoads (c : Consistent) : Z :=
  map_fold (λ _ h acc, LoadBound h + acc) 0 (hosts c).

(** The counter of one host, if it is registered. *)
Definition loadOf (c : Consistent) (hostName : string) : option Z :=
  LoadBound <$> hosts c !! hostName.

Lemma Done_unregistered (c : Consistent) (host : string) :
  hosts c !! host = None → Done c host = c.
Proof. intros Hh. unfold Done. by rewrite Hh. Qed.

Lemma UpdateLoad_unregistered (c : Consistent) (host : string) (load : Z) :
  hosts c !! host = None → UpdateLoad c host load = c.
Proof. intros Hh. unfold UpdateLoad. by rewrite Hh. Qed.

(** C7.  [Inc] does not look the host up before it dereferences the
    pointer: for a name that is not registered, [c.hosts[hostName]] is nil
    and taking the address of its [LoadBound] panics.  No counter has been
    written at that point. *)
Theorem Inc_unregistered_panics (c : Consistent) (hostName : string) :
  hosts c !! hostName = None →
  Inc c hostName = (c, Panics NilDereference).
Proof. intros Hh. unfold Inc. by rewrite Hh. Qed.

Lemma Inc_unregistered_panics_witness :
  Inc (New zero_digest 10 None) "ghost"
  = (New zero_digest 10 None, Panics NilDereference).
Proof. apply Inc_unregistered_panics. reflexivity. Defined.

Lemma Inc_registered (c : Consistent) (hostName : string) (h : Host) :
  hosts c !! hostName = Some h →
  Inc c hostName
  = (mkConsistent (replicaNum c) (addInt64 (totalLoad c) 1) (hashFunc c)
       (<[hostName := mkHost (Name h) (addInt64 (LoadBound h) 1)]> (hosts c))
       (virt2host c) (ring c),
     Ok tt).
Proof. intros Hh. unfold Inc. by rewrite Hh. Qed.

(** * Snapshots *)

(** A state in which one host is registered and nothing is in flight. *)
Definition one_idle_host : Consistent :=
  (RegisterHost (New zero_digest 1 (Some byte_sum)) "a").1.

(** What the three snapshots leave.  [GetLoads] and [Hosts] leave the
    whole state as it is; the one returns the counter of every registered
    host and the other the registered names.  [MaxLoad] leaves the
    registered hosts with their counters, the ring and the hash-to-host
    map as they are, and [totalLoad] too if it is not 0. *)
Lemma snapshots_frame (c : Consistent) :
  ((GetLoads c).1 = c
   ∧ ∀ hostName, (GetLoads c).2 !! hostName = loadOf c hostName)
  ∧ ((Hosts c).1 = c
     ∧ ∀ hostName, hostName ∈ (Hosts c).2 ↔ is_Some (hosts c !! hostName))
  ∧ (hosts (MaxLoad c).1 = hosts c
     ∧ ring (MaxLoad c).1 = ring c
     ∧ virt2host (MaxLoad c).1 = virt2host c
     ∧ (totalLoad c ≠ 0 → (MaxLoad c).1 = c)).
Proof.
  split; [|split].
  - split; [done|]. intros hostName. unfold GetLoads, loadOf. cbn. apply lookup_fmap.
  - split; [done|]. intros hostName. unfold Hosts. cbn.
    rewrite list_elem_of_fmap. split.
    + intros [[k h] [-> Hin]]. apply elem_of_map_to_list in Hin. cbn. eauto.
    + intros [h Hh]. exists (hostName, h). split; [done|].
      by apply elem_of_map_to_list.
  - unfold MaxLoad. cbn [fst].
    destruct (totalLoad c =? 0) eqn:Ht; repeat split; try done.
    apply Z.eqb_eq in Ht. done.
Qed.

(** C9.  [MaxLoad] is not a read-only snapshot: it starts with
    [if c.totalLoad == 0 { c.totalLoad = 1 }], a write to the field.  On
    every state whose [totalLoad] is 0 the call leaves [totalLoad] at 1,
    with the registered hosts and their counters as they were.  So with
    one idle host registered on a new instance, where [GetLoads] and
    [Hosts] change nothing, [MaxLoad] returns 2 and leaves [totalLoad] at 1
    while the sum of the counters is still 0.  The unit stays: after one
    [Inc] the threshold [MaxLoad] reports is 2, and 3 if [MaxLoad] had been
    called before the [Inc]. *)
Theorem MaxLoad_writes_totalLoad (c : Consistent) :
  (totalLoad (MaxLoad (set_totalLoad 0 c)).1 = 1
   ∧ hosts (MaxLoad (set_totalLoad 0 c)).1 = hosts c
   ∧ ring (MaxLoad (set_totalLoad 0 c)).1 = ring c
   ∧ virt2host (MaxLoad (set_totalLoad 0 c)).1 = virt2host c)
  ∧ (totalLoad one_idle_host = 0
     ∧ sumLoads one_idle_host = 0
     ∧ (GetLoads one_idle_host).1 = one_idle_host
     ∧ (Hosts one_idle_host).1 = one_idle_host
     ∧ (MaxLoad one_idle_host).2 = Ok 2
     ∧ totalLoad (MaxLoad one_idle_host).1 = 1
     ∧ sumLoads (MaxLoad one_idle_host).1 = 0
     ∧ (MaxLoad (Inc one_idle_host "a").1).2 = Ok 2
     ∧ (MaxLoad (Inc (MaxLoad one_idle_host).1 "a").1).2 = Ok 3).
Proof.
  split; [done|].
  split; [by vm_compute|]. split; [by vm_compute|].
  split; [done|]. split; [done|].
  repeat split; by vm_compute.
Qed.

(** * Unregistration *)

(** [delHashIndex] writes the ring and nothing else. *)
Lemma delHashIndex_frame (c : Consistent) (val : Z) :
  ∃ ring', (delHashIndex c val).1 = set_ring ring' c.
Proof.
  unfold delHashIndex.
  destruct (delHashIndex_loop _ _ _ _ _ _) as [idx| | |];
    [destruct (negb (idx =? -1))|..]; cbn [fst]; eauto;
    exists (ring c); by destruct c.
Qed.

Lemma UnregisterHost_loop_frame (hostName : string) (replicas : list Z) (c : Consistent) :
  ∃ ring', (UnregisterHost_loop c hostName replicas).1 = set_ring ring' c.
Proof.
  revert c. induction replicas as [|i replicas IH]; intros c; cbn.
  - exists (ring c). by destruct c.
  - destruct (delHashIndex_frame c (hashFunc c (hostReplicaFormat hostName i)))
      as [ring1 Hc1].
    destruct (delHashIndex c _) as [c1 r1]. cbn in Hc1. subst c1.
    destruct r1; cbn [fst]; eauto.
    destruct (IH (set_ring ring1 c)) as [ring2 ->]. eauto.
Qed.

Lemma UnregisterHost_frame (c : Consistent) (hostName : string) :
  virt2host (UnregisterHost c hostName).1 = virt2host c
  ∧ totalLoad (UnregisterHost c hostName).1 = totalLoad c.
Proof.
  unfold UnregisterHost. destruct (hosts c !! hostName); [|done].
  destruct (UnregisterHost_loop_frame hostName (seqZ 0 (replicaNum c))
              (set_hosts (delete hostName (hosts c)) c)) as [ring' Hc'].
  cbn [replicaNum set_hosts] in *. rewrite Hc'. done.
Qed.

(** A new instance with one replica per host, on which one host has been
    registered. *)
Definition one_host (Sum512 : list Byte.byte → vec Byte.byte 64)
    (hash : string → Z) (hostName : string) : Consistent :=
  (RegisterHost (New Sum512 1 (Some hash)) hostName).1.

Lemma one_host_eq Sum512 hash hostName :
  one_host Sum512 hash hostName
  = mkConsistent 1 0 hash {[hostName := mkHost hostName 0]}
      {[hash (hostReplicaFormat hostName 0) := hostName]}
      [hash (hostReplicaFormat hostName 0)].
Proof.
  unfold one_host. rewrite RegisterHost_fresh by apply lookup_empty. done.
Qed.

Lemma delHashIndex_loop_step (fuel : nat) (ring : list Z) (val idx l r x : Z) :
  l ≤ r →
  index ring ((l + r) ÷ 2) = Ok x →
  delHashIndex_loop (S fuel) ring val idx l r
  = if x =? val then Ok ((l + r) ÷ 2)
    else if x <? val then delHashIndex_loop fuel ring val idx ((l + r) ÷ 2 + 1) r
    else if x >? val then delHashIndex_loop fuel ring val idx l ((l + r) ÷ 2 - 1)
    else delHashIndex_loop fuel ring val idx l r.
Proof.
  intros Hlr Hx. cbn [delHashIndex_loop].
  replace (l <=? r) with true by (symmetry; apply Z.leb_le; lia).
  rewrite Hx. done.
Qed.

(** Whatever the ring holds, the loop of [delHashIndex] ends within as
    many iterations as the interval has entries, and reads inside the ring. *)
Lemma delHashIndex_loop_total (ring : list Z) (val idx : Z) (fuel : nat) :
  ∀ l r : Z,
    0 ≤ l → r < len ring → r - l + 1 ≤ Z.of_nat fuel →
    ∃ idx', delHashIndex_loop fuel ring val idx l r = Ok idx'.
Proof.
  induction fuel as [|fuel IH]; intros l r Hl Hr Hfuel.
  - cbn. replace (l <=? r) with false by (symmetry; apply Z.leb_gt; lia). eauto.
  - destruct (Z.le_gt_cases l r) as [Hle|Hgt].
    + set (m := (l + r) ÷ 2).
      assert (Hm : l ≤ m ≤ r).
      { unfold m. rewrite Z.quot_div_nonneg by lia.
        split; [apply Z.div_le_lower_bound|apply Z.div_le_upper_bound]; lia. }
      destruct (index_in_range ring m) as (x & Hx & Hix); [lia|].
      rewrite (delHashIndex_loop_step fuel ring val idx l r x) by done.
      fold m.
      destruct (Z.eqb_spec x val); [eauto|].
      destruct (Z.ltb_spec x val); [apply IH; lia|].
      replace (x >? val) with true by (symmetry; apply Z.gtb_lt; lia).
      apply IH; lia.
    + cbn [delHashIndex_loop].
      replace (l <=? r) with false by (symmetry; apply Z.leb_gt; lia). eauto.
Qed.

(** [delHashIndex] neither panics nor runs on, on any state. *)
Lemma delHashIndex_returns (c : Consistent) (val : Z) :
  (delHashIndex c val).2 = Ok tt.
Proof.
  unfold delHashIndex.
  destruct (delHashIndex_loop_total (ring c) val (-1) (length (ring c))
              0 (len (ring c) - 1)) as [idx ->]; try (unfold len; lia).
  by destruct (negb (idx =? -1)).
Qed.

Lemma delHashIndex_singleton (c : Consistent) (val : Z) :
  ring c = [val] → delHashIndex c val = (set_ring [] c, Ok tt).
Proof.
  intros Hring. unfold delHashIndex, len. rewrite Hring.
  change (delHashIndex_loop (length [val]) [val] val (-1) 0
            (Z.of_nat (length [val]) - 1))
    with (delHashIndex_loop 1 [val] val (-1) 0 0).
  rewrite (delHashIndex_loop_step 0 [val] val (-1) 0 0 val) by (lia || done).
  rewrite Z.eqb_refl. done.
Qed.

Lemma UnregisterHost_single (c : Consistent) (hostName : string) (h : Host) :
  replicaNum c = 1 →
  hosts c !! hostName = Some h →
  ring c = [hashFunc c (hostReplicaFormat hostName 0)] →
  UnregisterHost c hostName
  = (mkConsistent 1 (totalLoad c) (hashFunc c) (delete hostName (hosts c))
       (virt2host c) [],
     Ok tt).
Proof.
  intros Hr Hh Hring. unfold UnregisterHost. rewrite Hh.
  cbn [replicaNum set_hosts]. rewrite Hr.
  change (seqZ 0 1) with [0]. cbn [UnregisterHost_loop].
  rewrite delHashIndex_singleton by done.
  unfold set_ring. cbn. by rewrite Hr.
Qed.

(** C1.  [UnregisterHost] removes the virtual-node hashes of the host
    from the ring but never from the hash-to-host map: the map after the
    call is the map before it, whatever the state and the name.  So after
    a host has been registered on a new instance and unregistered again,
    both with success, the ring is empty and no host is registered, while
    the map still sends the hash of the virtual node to the host that is
    gone; a lookup with load bound on that state, whose guard reads the
    size of the map, goes on to index the empty ring. *)
Theorem UnregisterHost_keeps_virt2host
    (Sum512 : list Byte.byte → vec Byte.byte 64)
    (c : Consistent) (hash : string → Z) (hostName key : string) :
  virt2host (UnregisterHost c hostName).1 = virt2host c
  ∧ (let c1 := one_host Sum512 hash hostName in
     let c2 := (UnregisterHost c1 hostName).1 in
     (UnregisterHost c1 hostName).2 = Ok tt
     ∧ ring c2 = []
     ∧ hosts c2 = ∅
     ∧ virt2host c2 !! hash (hostReplicaFormat hostName 0) = Some hostName
     ∧ ∀ fuel, (GetHostCapacious (S fuel) c2 key).2 = Panics IndexOutOfRange).
Proof.
  split; [apply UnregisterHost_frame|].
  cbn zeta. rewrite one_host_eq.
  erewrite UnregisterHost_single by (done || apply lookup_singleton_eq).
  cbn [fst snd hosts ring virt2host totalLoad hashFunc].
  rewrite delete_singleton_eq.
  repeat split; try done.
  - apply lookup_singleton_eq.
  - intros fuel. unfold GetHostCapacious. cbn [virt2host].
    rewrite map_size_singleton, searchKey_empty by done. done.
Qed.

Lemma sumLoads_fresh (c : Consistent) (hostName : string) (h : Host) :
  hosts c !! hostName = None →
  sumLoads (set_hosts (<[hostName := h]> (hosts c)) c) = LoadBound h + sumLoads c.
Proof.
  intros Hh. unfold sumLoads. cbn [hosts set_hosts].
  rewrite map_fold_insert_L; [done| |done]. intros. lia.
Qed.

Lemma sumLoads_delete (c : Consistent) (hostName : string) (h : Host) :
  hosts c !! hostName = Some h →
  sumLoads (set_hosts (delete hostName (hosts c)) c) = sumLoads c - LoadBound h.
Proof.
  intros Hh. unfold sumLoads. cbn [hosts set_hosts].
  rewrite (map_fold_delete_L _ 0 hostName h (hosts c)); [lia| |done].
  intros. lia.
Qed.

Lemma sumLoads_update (c : Consistent) (hostName : string) (h h' : Host) :
  hosts c !! hostName = Some h →
  sumLoads (set_hosts (<[hostName := h']> (hosts c)) c)
  = sumLoads c - LoadBound h + LoadBound h'.
Proof.
  intros Hh. rewrite <- (sumLoads_delete c hostName h Hh).
  rewrite <- (insert_delete_eq (hosts c)).
  unfold sumLoads. cbn [hosts set_hosts].
  rewrite map_fold_insert_L; [lia| |apply lookup_delete_eq].
  intros. lia.
Qed.

(** The other operations keep [totalLoad] equal to the sum of the
    counters, as long as the counters stay in range. *)
Lemma RegisterHost_conserves (c : Consistent) (hostName : string) :
  totalLoad c = sumLoads c →
  totalLoad (RegisterHost c hostName).1 = sumLoads (RegisterHost c hostName).1.
Proof.
  intros Heq. destruct (hosts c !! hostName) as [h|] eqn:Hh.
  - rewrite RegisterHost_known by eauto. done.
  - rewrite RegisterHost_fresh by done. cbn [fst totalLoad].
    pose proof (sumLoads_fresh c hostName (mkHost hostName 0) Hh) as Hsum.
    unfold sumLoads in *. cbn [hosts set_hosts LoadBound] in *. lia.
Qed.

Lemma Inc_conserves (c : Consistent) (hostName : string) (h : Host) :
  hosts c !! hostName = Some h →
  exact_range (totalLoad c) → exact_range (LoadBound h) →
  totalLoad c = sumLoads c →
  totalLoad (Inc c hostName).1 = sumLoads (Inc c hostName).1.
Proof.
  unfold exact_range. intros Hh Ht Hl Heq.
  rewrite (Inc_registered c hostName h Hh). cbn [fst totalLoad].
  pose proof (sumLoads_update c hostName h
                (mkHost (Name h) (addInt64 (LoadBound h) 1)) Hh) as Hsum.
  unfold sumLoads in *. cbn [hosts set_hosts LoadBound] in *.
  rewrite Hsum, !addInt64_small by lia. lia.
Qed.

Lemma Done_conserves (c : Consistent) (host : string) :
  exact_range (totalLoad c) →
  (∀ h, hosts c !! host = Some h → exact_range (LoadBound h)) →
  totalLoad c = sumLoads c →
  totalLoad (Done c host) = sumLoads (Done c host).
Proof.
  unfold exact_range. intros Ht Hl Heq. unfold Done.
  destruct (hosts c !! host) as [h|] eqn:Hh; [|done].
  specialize (Hl h eq_refl).
  pose proof (sumLoads_update c host h
                (mkHost (Name h) (addInt64 (LoadBound h) (-1))) Hh) as Hsum.
  unfold sumLoads in *. cbn [hosts set_hosts set_totalLoad totalLoad LoadBound] in *.
  rewrite Hsum, !addInt64_small by lia. lia.
Qed.

Lemma UpdateLoad_conserves (c : Consistent) (host : string) (load : Z) :
  exact_range (totalLoad c) → exact_range load →
  (∀ h, hosts c !! host = Some h → exact_range (LoadBound h)) →
  totalLoad c = sumLoads c →
  totalLoad (UpdateLoad c host load) = sumLoads (UpdateLoad c host load).
Proof.
  unfold exact_range. intros Ht Hload Hl Heq. unfold UpdateLoad.
  destruct (hosts c !! host) as [h|] eqn:Hh; [|done].
  specialize (Hl h eq_refl).
  pose proof (sumLoads_update c host h (mkHost (Name h) load) Hh) as Hsum.
  unfold sumLoads in *. cbn [hosts set_hosts set_totalLoad totalLoad LoadBound] in *.
  rewrite Hsum, !addInt64_small by (rewrite ?addInt64_small; lia). lia.
Qed.

(** C2.  [UnregisterHost] removes a host without taking its counter out
    of [totalLoad]: whatever the state, unregistering a registered host
    leaves [totalLoad] as it was and lowers the sum of the counters by the
    counter of that host.  So a host that is registered, given one request
    with [Inc], and unregistered leaves [totalLoad] at 1 with no host
    registered and a sum of 0; a later [Done] for that host changes
    nothing. *)
Theorem UnregisterHost_leaks_load
    (Sum512 : list Byte.byte → vec Byte.byte 64)
    (hash : string → Z) (hostName : string) (c : Consistent) (h : Host) :
  (hosts c !! hostName = Some h →
   totalLoad (UnregisterHost c hostName).1 = totalLoad c
   ∧ sumLoads (UnregisterHost c hostName).1 = sumLoads c - LoadBound h)
  ∧ (let c1 := (Inc (one_host Sum512 hash hostName) hostName).1 in
     let c2 := (UnregisterHost c1 hostName).1 in
     (totalLoad c1 = 1 ∧ sumLoads c1 = 1)
     ∧ (UnregisterHost c1 hostName).2 = Ok tt
     ∧ hosts c2 = ∅
     ∧ sumLoads c2 = 0
     ∧ totalLoad c2 = 1
     ∧ Done c2 hostName = c2).
Proof.
  split.
  { intros Hh. split; [apply UnregisterHost_frame|].
    rewrite <- (sumLoads_delete c hostName h Hh).
    unfold UnregisterHost. rewrite Hh.
    destruct (UnregisterHost_loop_frame hostName
                (seqZ 0 (replicaNum (set_hosts (delete hostName (hosts c)) c)))
                (set_hosts (delete hostName (hosts c)) c)) as [ring' ->].
    done. }
  cbn zeta. rewrite one_host_eq.
  erewrite Inc_registered by apply lookup_singleton_eq.
  cbn [fst hosts ring virt2host totalLoad hashFunc replicaNum Name LoadBound].
  rewrite insert_singleton_eq.
  split.
  { split; [done|]. unfold sumLoads. cbn [hosts].
    rewrite map_fold_singleton. done. }
  erewrite UnregisterHost_single by (done || apply lookup_singleton_eq).
  cbn [fst snd hosts ring virt2host totalLoad hashFunc].
  rewrite delete_singleton_eq.
  repeat split; try done.
Qed.

Lemma UnregisterHost_leaks_load_witness :
  let c := (Inc one_idle_host "a").1 in
  totalLoad c = sumLoads c
  ∧ totalLoad (UnregisterHost c "a").1 = 1
  ∧ sumLoads (UnregisterHost c "a").1 = 0.
Proof.
  intros c.
  destruct (UnregisterHost_leaks_load zero_digest byte_sum "a" c (mkHost "a" 1))
    as [Hgen _].
  destruct Hgen as [Ht Hs]; [reflexivity|].
  split; [reflexivity|]. split.
  - rewrite Ht. reflexivity.
  - rewrite Hs. reflexivity.
Defined.

(** * The capacity check *)

(** The threshold of [checkLoadCapacity] and [GetHostCapacious]: the
    quotient of [totalLoad + 1], with a negative [totalLoad] taken as 0, by
    the number of hosts, as an integer division that truncates; 1 in place
    of a quotient 0; that average times [1 + LoadBoundFactor], rounded up. *)
Definition capacity (totalLoad hostCount : Z) : Z :=
  let q := (Z.max totalLoad 0 + 1) ÷ hostCount in
  let avgLoadPerNode := if q =? 0 then 1 else q in
  Qceiling (inject_Z avgLoadPerNode * (1 + LoadBoundFactor)).

(** The threshold in the words of the specification: the division is the
    division of real numbers, and the result is at least 1 if the average
    is 0. *)
Definition spec_capacity (totalLoad hostCount : Z) : Z :=
  let avg := (inject_Z (totalLoad + 1) / inject_Z hostCount)%Q in
  let cap := Qceiling (avg * (1 + LoadBoundFactor)) in
  if Qeq_bool avg 0 then Z.max 1 cap else cap.

Lemma Qceiling_five_quarters (a : Z) :
  Qceiling (inject_Z a * (1 + LoadBoundFactor)) = (5 * a + 3) / 4.
Proof.
  unfold Qceiling, Qfloor, LoadBoundFactor, Qopp, Qmult, Qplus, inject_Z.
  cbn [Qnum Qden]. change (Z.pos (1 * (1 * 4))) with 4.
  change (1 * Z.pos 4 + 1 * 1) with 5.
  assert (H := Z.div_mod (- (a * 5)) 4). assert (H' := Z.div_mod (5 * a + 3) 4).
  assert (Hm := Z.mod_pos_bound (- (a * 5)) 4).
  assert (Hm' := Z.mod_pos_bound (5 * a + 3) 4). lia.
Qed.

Lemma capacity_closed (totalLoad hostCount : Z) :
  capacity totalLoad hostCount
  = let q := (Z.max totalLoad 0 + 1) ÷ hostCount in
    (5 * (if q =? 0 then 1 else q) + 3) / 4.
Proof. unfold capacity. cbn zeta. apply Qceiling_five_quarters. Qed.

Lemma Qeq_bool_inject_Z (q : Z) : Qeq_bool (inject_Z q) 0 = (q =? 0).
Proof. by destruct q. Qed.

Lemma Qle_bool_inject_Z (l cap : Z) :
  Qle_bool (inject_Z l + 1) (inject_Z cap) = (l + 1 <=? cap).
Proof.
  unfold Qle_bool, inject_Z, Qplus. cbn [Qnum Qden].
  f_equal; lia.
Qed.

(** The state [checkLoadCapacity] leaves: a negative [totalLoad] is
    overwritten with 0. *)
Definition clamped (c : Consistent) : Consistent :=
  if totalLoad c <? 0 then set_totalLoad 0 c else c.

Lemma clamped_fields (c : Consistent) :
  totalLoad (clamped c) = Z.max (totalLoad c) 0
  ∧ hosts (clamped c) = hosts c
  ∧ virt2host (clamped c) = virt2host c
  ∧ ring (clamped c) = ring c
  ∧ hashFunc (clamped c) = hashFunc c
  ∧ replicaNum (clamped c) = replicaNum c.
Proof.
  unfold clamped. destruct (totalLoad c <? 0) eqn:Ht; cbn; repeat split; try done.
  - apply Z.ltb_lt in Ht. lia.
  - apply Z.ltb_ge in Ht. lia.
Qed.

Lemma clamped_idem (c : Consistent) : clamped (clamped c) = clamped c.
Proof.
  unfold clamped at 1. destruct (clamped_fields c) as (Ht & _).
  replace (totalLoad (clamped c) <? 0) with false; [done|].
  symmetry. apply Z.ltb_ge. lia.
Qed.

Lemma checkLoadCapacity_state (c : Consistent) (host : string) :
  (checkLoadCapacity c host).1 = clamped c.
Proof. done. Qed.

Lemma checkLoadCapacity_registered (c : Consistent) (host : string) (h : Host) :
  hosts c !! host = Some h →
  totalLoad c < 2 ^ 63 - 1 →
  checkLoadCapacity c host
  = (clamped c,
     Ok (bool_decide
           (LoadBound h + 1 ≤ capacity (totalLoad c) (Z.of_nat (size (hosts c)))))).
Proof.
  intros Hh Ht. unfold checkLoadCapacity. fold (clamped c). f_equal.
  destruct (clamped_fields c) as (HT & HH & _). rewrite HT, HH, Hh.
  assert (Hsize : size (hosts c) ≠ 0%nat).
  { apply map_size_ne_0_lookup. eauto. }
  unfold divInt64.
  replace (Z.of_nat (size (hosts c)) =? 0) with false
    by (symmetry; apply Z.eqb_neq; lia).
  cbn [mbind result_mbind result_bind].
  rewrite addInt64_small by lia.
  set (n := Z.of_nat (size (hosts c))).
  set (x := Z.max (totalLoad c) 0 + 1).
  assert (Hq : 0 ≤ x ÷ n ≤ x).
  { split; [apply Z.quot_pos; lia|].
    rewrite Z.quot_div_nonneg by lia.
    apply Z.div_le_upper_bound; [lia|]. nia. }
  rewrite wrap64_small by lia.
  unfold float64_of_int64, math_Ceil. rewrite Qeq_bool_inject_Z.
  unfold capacity. fold x.
  replace (if x ÷ n =? 0 then 1%Q else inject_Z (x ÷ n))
    with (inject_Z (if x ÷ n =? 0 then 1 else x ÷ n))
    by (by destruct (x ÷ n =? 0)).
  rewrite Qle_bool_inject_Z.
  destruct (Z.leb_spec (LoadBound h + 1)
              (Qceiling (inject_Z (if x ÷ n =? 0 then 1 else x ÷ n)
                         * (1 + LoadBoundFactor)))).
  - by rewrite bool_decide_eq_true_2.
  - rewrite bool_decide_eq_false_2; [done|lia].
Qed.

Lemma checkLoadCapacity_unregistered (c : Consistent) (host : string) :
  hosts c !! host = None →
  hosts c ≠ ∅ →
  (checkLoadCapacity c host).2 = Error ErrHostNotFound.
Proof.
  intros Hh Hne. unfold checkLoadCapacity. fold (clamped c). cbn [snd].
  destruct (clamped_fields c) as (HT & HH & _). rewrite HH, Hh.
  unfold divInt64.
  assert (Hsize : size (hosts c) ≠ 0%nat) by (by apply map_size_non_empty_iff).
  replace (Z.of_nat (size (hosts c)) =? 0) with false
    by (symmetry; apply Z.eqb_neq; lia).
  done.
Qed.

(** Three and four hosts registered on a new instance with one replica
    per host. *)
Definition three_hosts : Consistent :=
  let c := New zero_digest 1 (Some byte_sum) in
  let c := (RegisterHost c "a").1 in
  let c := (RegisterHost c "b").1 in
  (RegisterHost c "c").1.

Definition four_hosts : Consistent := (RegisterHost three_hosts "d").1.

(** C4 as stated fails, in both directions.  With three hosts, one
    request in flight and that request on host [a], the check accepts [a]
    although the threshold of the specification is 1: the code divides 2 by
    3 as integers, takes 1 in place of the quotient 0, and gets 2.  With
    four hosts and 6 requests in flight, 2 of them on [a], the check
    rejects [a] although the threshold of the specification is 3: the code
    divides 7 by 4 as integers and gets 2 from the quotient 1. *)
Lemma capacity_check_truncates :
  (let c := (Inc three_hosts "a").1 in
   totalLoad c = 1 ∧ size (hosts c) = 3%nat ∧ loadOf c "a" = Some 1
   ∧ (checkLoadCapacity c "a").2 = Ok true
   ∧ spec_capacity 1 3 = 1)
  ∧ (let c := UpdateLoad (UpdateLoad (UpdateLoad four_hosts "a" 2) "b" 2) "c" 2 in
     totalLoad c = 6 ∧ size (hosts c) = 4%nat ∧ loadOf c "a" = Some 2
     ∧ (checkLoadCapacity c "a").2 = Ok false
     ∧ spec_capacity 6 4 = 3).
Proof. by vm_compute. Qed.

(** C4, amended.  While [totalLoad] and the counter of the candidate are
    below 2^50 in magnitude, the range on which the [float64] arithmetic of
    the code is exact, the capacity check accepts a registered host [H]
    exactly when [H.LoadBound + 1 <= cap], where [cap] is
    [ceil(avg * (1 + LoadBoundFactor))] and [avg] is the quotient of
    [totalLoad + 1] (a negative [totalLoad] counting as 0) by the number of
    hosts in integer division, which truncates, with 1 in place of a
    quotient 0.  So [cap] is [(5 * avg + 3) / 4] rounded down, and [H] is
    accepted exactly when [4 * H.LoadBound < 5 * avg]. *)
Theorem checkLoadCapacity_accepts (c : Consistent) (host : string) (h : Host) :
  hosts c !! host = Some h →
  exact_range (totalLoad c) →
  exact_range (LoadBound h) →
  let hostCount := Z.of_nat (size (hosts c)) in
  let q := (Z.max (totalLoad c) 0 + 1) ÷ hostCount in
  let avg := if q =? 0 then 1 else q in
  let cap := capacity (totalLoad c) hostCount in
  ∃ accepted : bool,
    (checkLoadCapacity c host).2 = Ok accepted
    ∧ (accepted = true ↔ LoadBound h + 1 ≤ cap)
    ∧ cap = (5 * avg + 3) / 4
    ∧ (accepted = true ↔ 4 * LoadBound h < 5 * avg).
Proof.
  intros Hh Ht Hl hostCount q avg cap. unfold exact_range in *.
  rewrite (checkLoadCapacity_registered c host h) by (done || lia).
  fold hostCount. fold cap.
  exists (bool_decide (LoadBound h + 1 ≤ cap)). split; [done|].
  assert (Hcap : cap = (5 * avg + 3) / 4) by apply capacity_closed.
  split; [apply bool_decide_eq_true|]. split; [done|].
  rewrite bool_decide_eq_true, Hcap.
  assert (H := Z.div_mod (5 * avg + 3) 4).
  assert (Hm := Z.mod_pos_bound (5 * avg + 3) 4). lia.
Qed.

Lemma checkLoadCapacity_accepts_witness :
  ∃ accepted : bool,
    (checkLoadCapacity (Inc three_hosts "a").1 "a").2 = Ok accepted
    ∧ (accepted = true ↔ 1 + 1 ≤ capacity 1 3)
    ∧ capacity 1 3 = (5 * 1 + 3) / 4
    ∧ (accepted = true ↔ 4 * 1 < 5 * 1).
Proof.
  apply (checkLoadCapacity_accepts (Inc three_hosts "a").1 "a" (mkHost "a" 1)).
  - reflexivity.
  - unfold exact_range. vm_compute. split; reflexivity.
  - unfold exact_range. vm_compute. split; reflexivity.
Defined.

(** * Bounded load *)

Lemma capacity_clamped (c : Consistent) :
  capacity (totalLoad (clamped c)) (Z.of_nat (size (hosts (clamped c))))
  = capacity (totalLoad c) (Z.of_nat (size (hosts c))).
Proof.
  destruct (clamped_fields c) as (-> & -> & _). unfold capacity.
  by replace (Z.max (Z.max (totalLoad c) 0) 0) with (Z.max (totalLoad c) 0) by lia.
Qed.

Lemma checkLoadCapacity_unregistered_not_Ok (c : Consistent) (host : string) (b : bool) :
  hosts c !! host = None → (checkLoadCapacity c host).2 ≠ Ok b.
Proof.
  intros Hh. unfold checkLoadCapacity. fold (clamped c). cbn [snd].
  destruct (clamped_fields c) as (_ & -> & _). rewrite Hh.
  by destruct (divInt64 _ _).
Qed.

(** A host the walk returns is registered and has passed the check, and
    the state the walk leaves is the state it started in with a negative
    [totalLoad] set to 0. *)
Lemma GetHostCapacious_loop_Ok (fuel : nat) (c : Consistent) (i : Z)
    (c1 : Consistent) (host : string) :
  totalLoad c < 2 ^ 63 - 1 →
  GetHostCapacious_loop fuel c i = (c1, Ok host) →
  c1 = clamped c
  ∧ ∃ h, hosts c !! host = Some h
         ∧ LoadBound h + 1 ≤ capacity (totalLoad c) (Z.of_nat (size (hosts c))).
Proof.
  revert c i. induction fuel as [|fuel IH]; intros c i Ht Hrun; [done|].
  cbn [GetHostCapacious_loop] in Hrun.
  destruct (index (ring c) i) as [v| | |]; try done.
  set (host' := default "" (virt2host c !! v)) in *.
  destruct (hosts c !! host') as [h|] eqn:Hh.
  - rewrite (checkLoadCapacity_registered c host' h) in Hrun by done.
    case_bool_decide as Hcap.
    + injection Hrun as <- <-. eauto.
    + destruct (clamped_fields c) as (HT & HH & _).
      apply IH in Hrun as (-> & h' & Hh' & Hcap'); [|lia].
      rewrite clamped_idem. split; [done|].
      rewrite capacity_clamped in Hcap'. rewrite HH in Hh'. eauto.
  - pose proof (checkLoadCapacity_unregistered_not_Ok c host') as Hno.
    destruct (checkLoadCapacity c host') as [c' [b| | |]]; try done.
    by destruct (Hno b Hh).
Qed.

Lemma GetHostCapacious_Ok (fuel : nat) (c : Consistent) (key : string)
    (c1 : Consistent) (host : string) :
  totalLoad c < 2 ^ 63 - 1 →
  GetHostCapacious fuel c key = (c1, Ok host) →
  c1 = clamped c
  ∧ ∃ h, hosts c !! host = Some h
         ∧ LoadBound h + 1 ≤ capacity (totalLoad c) (Z.of_nat (size (hosts c))).
Proof.
  intros Ht. unfold GetHostCapacious.
  destruct (Z.of_nat (size (virt2host c)) =? 0); [done|].
  destruct (searchKey c (hashFunc c key)) as [idx| | |]; try done.
  by apply GetHostCapacious_loop_Ok.
Qed.

(** A run of the router's [GetHostCapacious] without the forwarded
    requests and without release: for each key in turn, the lookup and
    then [Inc] on the host it returned.  Next to the state the run keeps,
    for every host it has assigned, the threshold [cap] of the moment of
    the latest assignment, computed from [totalLoad] and the number of
    hosts as the lookup saw them.  The run stops with [None] at a lookup
    that does not return a host. *)
Fixpoint assign_all (cap : Z → Z → Z) (fuel : nat) (c : Consistent)
    (keys : list string) (caps : gmap string Z)
  : option (Consistent * gmap string Z) :=
  match keys with
  | [] => Some (c, caps)
  | key :: keys =>
      match GetHostCapacious fuel c key with
      | (c1, Ok host) =>
          match Inc c1 host with
          | (c2, Ok _) =>
              let cap_now := cap (totalLoad c1) (Z.of_nat (size (hosts c1))) in
              assign_all cap fuel c2 keys (<[host := cap_now]> caps)
          | _ => None
          end
      | _ => None
      end
  end.

(** No assigned host is above the threshold of its latest assignment. *)
Definition within_caps (c : Consistent) (caps : gmap string Z) : Prop :=
  ∀ host cap, caps !! host = Some cap →
    ∃ h, hosts c !! host = Some h ∧ LoadBound h ≤ cap.

Lemma capacity_upper (totalLoad hostCount : Z) :
  0 < hostCount → capacity totalLoad hostCount ≤ 2 * (Z.max totalLoad 0 + 1).
Proof.
  intros Hn. rewrite capacity_closed. cbn zeta.
  set (x := Z.max totalLoad 0 + 1).
  assert (Hq : 0 ≤ x ÷ hostCount ≤ x).
  { split; [apply Z.quot_pos; lia|].
    rewrite Z.quot_div_nonneg by lia.
    apply Z.div_le_upper_bound; [lia|]. nia. }
  destruct (Z.eqb_spec (x ÷ hostCount) 0).
  - apply Z.div_le_upper_bound; lia.
  - apply Z.div_le_upper_bound; lia.
Qed.

Lemma assign_all_within_caps (fuel : nat) (keys : list string) :
  ∀ (c : Consistent) (caps : gmap string Z) (c' : Consistent) (caps' : gmap string Z),
    Z.max (totalLoad c) 0 + len keys < 2 ^ 50 →
    (∀ host h, hosts c !! host = Some h → - 2 ^ 50 < LoadBound h) →
    within_caps c caps →
    assign_all capacity fuel c keys caps = Some (c', caps') →
    within_caps c' caps'.
Proof.
  unfold len.
  induction keys as [|key keys IH]; intros c caps c' caps' Ht Hlow Hcaps Hrun.
  - cbn in Hrun. by injection Hrun as <- <-.
  - cbn [assign_all] in Hrun. cbn [length] in Ht.
    destruct (GetHostCapacious fuel c key) as [c1 [host| | |]] eqn:Hget; try done.
    apply GetHostCapacious_Ok in Hget as (-> & h & Hh & Hcap); [|lia].
    destruct (clamped_fields c) as (HT & HH & _).
    rewrite (Inc_registered (clamped c) host h) in Hrun by (by rewrite HH).
    rewrite capacity_clamped in Hrun.
    assert (Hn : 0 < Z.of_nat (size (hosts c))).
    { assert (size (hosts c) ≠ 0%nat) by (apply map_size_ne_0_lookup; eauto). lia. }
    pose proof (capacity_upper (totalLoad c) _ Hn) as Hup.
    pose proof (Hlow host h Hh) as Hl.
    rewrite HT, HH in Hrun.
    rewrite !addInt64_small in Hrun by lia.
    eapply IH in Hrun; [done|..].
    + cbn [totalLoad]. lia.
    + cbn [hosts]. intros host' h' Hh'.
      destruct (decide (host = host')) as [->|Hne].
      * rewrite lookup_insert_eq in Hh'. injection Hh' as <-. cbn. lia.
      * rewrite lookup_insert_ne in Hh' by done. eauto.
    + intros host' cap'. cbn [hosts].
      destruct (decide (host = host')) as [->|Hne].
      * rewrite !lookup_insert_eq. intros [= <-]. eexists. split; [done|]. cbn. lia.
      * rewrite !lookup_insert_ne by done. apply Hcaps.
Qed.

(** C3 as stated fails.  Four hosts, nothing in flight, and the key [k]
    twice: both lookups return host [a], whose counter is then 2.  At the
    second assignment [totalLoad] was 1 and became 2, and the threshold of
    the specification, with the division of real numbers, is 1 for either
    value: [ceil((2 / 4) * 1.25)] and [ceil((3 / 4) * 1.25)]. *)
Lemma bounded_load_real_division_fails :
  ∃ c' caps',
    assign_all spec_capacity 4 four_hosts ["k"; "k"] ∅ = Some (c', caps')
    ∧ loadOf c' "a" = Some 2
    ∧ caps' !! "a" = Some 1
    ∧ spec_capacity 1 4 = 1
    ∧ spec_capacity 2 4 = 1
    ∧ ¬ within_caps c' caps'.
Proof.
  eexists _, _. split; [by vm_compute|].
  split; [by vm_compute|]. split; [by vm_compute|].
  split; [by vm_compute|]. split; [by vm_compute|].
  intros Hcaps. destruct (Hcaps "a" 1) as (h & Hh & Hle); [by vm_compute|].
  vm_compute in Hh. injection Hh as <-. cbn in Hle. lia.
Qed.

(** C3, amended.  For every sequence of [GetHostCapacious] calls, each
    followed by [Inc] on the host it returned and with no [Done] in
    between, no host's [LoadBound] exceeds the threshold
    [ceil(avg * (1 + LoadBoundFactor))] of the moment that host was last
    assigned, where [avg] is the quotient of [totalLoad + 1] by the number
    of hosts in integer division, which truncates, with 1 in place of a
    quotient 0.  (Counters in the range on which the arithmetic of the
    code is exact.) *)
Theorem bounded_load (fuel : nat) (c : Consistent) (keys : list string)
    (c' : Consistent) (caps' : gmap string Z) :
  Z.max (totalLoad c) 0 + len keys < 2 ^ 50 →
  (∀ host h, hosts c !! host = Some h → - 2 ^ 50 < LoadBound h) →
  assign_all capacity fuel c keys ∅ = Some (c', caps') →
  ∀ host cap, caps' !! host = Some cap →
    ∃ h, hosts c' !! host = Some h ∧ LoadBound h ≤ cap.
Proof.
  intros Ht Hlow Hrun.
  eapply (assign_all_within_caps fuel keys c ∅); try done.
Qed.

Lemma bounded_load_witness :
  ∃ c' caps',
    assign_all capacity 3 three_hosts ["k"; "k"; "k"] ∅ = Some (c', caps')
    ∧ caps' !! "a" = Some 2 ∧ caps' !! "b" = Some 2
    ∧ (∃ h, hosts c' !! "a" = Some h ∧ LoadBound h ≤ 2)
    ∧ (∃ h, hosts c' !! "b" = Some h ∧ LoadBound h ≤ 2).
Proof.
  eexists _, _. split; [by vm_compute|].
  split; [by vm_compute|]. split; [by vm_compute|].
  assert (Ht : Z.max (totalLoad three_hosts) 0 + len ["k"; "k"; "k"] < 2 ^ 50)
    by (by vm_compute).
  assert (Hlow : ∀ host h, hosts three_hosts !! host = Some h
                           → - 2 ^ 50 < LoadBound h).
  { assert (Hall : map_Forall (λ (_ : string) h, - 2 ^ 50 < LoadBound h)
                     (hosts three_hosts)).
    { apply (bool_decide_unpack _). by vm_compute. }
    intros host h Hh. exact (Hall host h Hh). }
  split.
  - eapply (bounded_load 3 three_hosts ["k"; "k"; "k"]);
      [exact Ht|exact Hlow|by vm_compute|by vm_compute].
  - eapply (bounded_load 3 three_hosts ["k"; "k"; "k"]);
      [exact Ht|exact Hlow|by vm_compute|by vm_compute].
Defined.

(** * Successor lookup *)

Lemma Sorted_lookup_le (l : list Z) (a b : nat) (x y : Z) :
  Sorted Z.le l → (a ≤ b)%nat → l !! a = Some x → l !! b = Some y → x ≤ y.
Proof.
  intros Hs%(Sorted_StronglySorted Z.le). revert a b.
  induction Hs as [|z l Hs IH Hall]; intros a b Hab Ha Hb; [done|].
  destruct a as [|a], b as [|b]; cbn in *; try lia.
  - injection Ha as <-. injection Hb as <-. lia.
  - injection Ha as <-. rewrite Forall_forall in Hall.
    apply Hall. by eapply list_elem_of_lookup_2.
  - eapply (IH a b); [lia|done..].
Qed.

(** The predicate [searchKey] hands to [sort.Search]. *)
Definition at_least (ring : list Z) (key : Z) (i : Z) : result bool :=
  x ← index ring i; Ok (x >=? key).

Lemma sort_Search_loop_sorted (ring : list Z) (key : Z) (fuel : nat) :
  Sorted Z.le ring →
  ∀ i j : Z,
    0 ≤ i ≤ j → j ≤ len ring → j - i ≤ Z.of_nat fuel →
    (∀ (k : nat) x, Z.of_nat k < i → ring !! k = Some x → x < key) →
    (∀ (k : nat) x, j ≤ Z.of_nat k → ring !! k = Some x → key ≤ x) →
    ∃ idx, sort_Search_loop fuel (at_least ring key) i j = Ok idx
           ∧ i ≤ idx ≤ j
           ∧ (∀ (k : nat) x, Z.of_nat k < idx → ring !! k = Some x → x < key)
           ∧ (∀ (k : nat) x, idx ≤ Z.of_nat k → ring !! k = Some x → key ≤ x).
Proof.
  intros Hs. induction fuel as [|fuel IH]; intros i j Hij Hj Hfuel Hlow Hhigh.
  - cbn. replace (i <? j) with false by (symmetry; apply Z.ltb_ge; lia).
    exists i. repeat split; try done; try lia.
    intros k x Hk. apply Hhigh. lia.
  - cbn [sort_Search_loop]. destruct (Z.ltb_spec i j) as [Hlt|Hge].
    + set (h := Z.shiftr (i + j) 1).
      assert (Hh : i ≤ h < j).
      { unfold h. rewrite Z.shiftr_div_pow2 by lia. change (2 ^ 1) with 2.
        split; [apply Z.div_le_lower_bound|apply Z.div_lt_upper_bound]; lia. }
      destruct (index_in_range ring h) as (x & Hx & Hix); [lia|].
      assert (Hat : at_least ring key h = Ok (x >=? key))
        by (unfold at_least; by rewrite Hix).
      rewrite Hat. cbn [mbind result_mbind result_bind].
      destruct (Z.geb_spec x key) as [Hxk|Hxk]; cbn [negb].
      * destruct (IH i h) as (idx & Hrun & Hidx & Hl & Hu); try lia; try done.
        { intros k y Hk Hy. 
          assert (x ≤ y); [|lia].
          apply (Sorted_lookup_le ring (Z.to_nat h) k); try done. lia. }
        exists idx. repeat split; try done; lia.
      * destruct (IH (h + 1) j) as (idx & Hrun & Hidx & Hl & Hu); try lia; try done.
        { intros k y Hk Hy.
          assert (y ≤ x); [|lia].
          apply (Sorted_lookup_le ring k (Z.to_nat h)); try done. lia. }
        exists idx. repeat split; try done; lia.
    + exists i. repeat split; try done; try lia.
      intros k x Hk. apply Hhigh. lia.
Qed.

(** In the words of the specification: the index of the first ring
    entry whose hash is at least [h], and index 0 if there is none. *)
Definition successor (ring : list Z) (h : Z) : nat :=
  match list_find (λ x, h ≤ x) ring with
  | Some (i, _) => i
  | None => 0%nat
  end.

Lemma searchKey_sorted (c : Consistent) (key : Z) :
  Sorted Z.le (ring c) →
  searchKey c key = Ok (Z.of_nat (successor (ring c) key)).
Proof.
  intros Hs. unfold searchKey, sort_Search. fold (at_least (ring c) key).
  destruct (sort_Search_loop_sorted (ring c) key (Z.to_nat (len (ring c))) Hs
              0 (len (ring c))) as (idx & -> & Hidx & Hlow & Hhigh);
    try (unfold len; lia).
  { intros k x Hk Hx. apply lookup_lt_Some in Hx. unfold len in Hk. lia. }
  cbn [mbind result_mbind result_bind]. f_equal. unfold successor.
  destruct (Z.leb_spec (len (ring c)) idx) as [Hge|Hlt].
  - replace (list_find (λ x, key ≤ x) (ring c)) with (@None (nat * Z)); [done|].
    symmetry. apply list_find_None, Forall_forall. intros x Hx.
    apply list_elem_of_lookup in Hx as [k Hk].
    pose proof (lookup_lt_Some _ _ _ Hk) as Hklt. unfold len in Hge.
    assert (x < key); [|lia]. apply (Hlow k); [lia|done].
  - destruct (index_in_range (ring c) idx) as (x & Hx & _); [lia|].
    replace (list_find (λ x, key ≤ x) (ring c)) with (Some (Z.to_nat idx, x));
      [lia|].
    symmetry. apply list_find_Some. split; [done|]. split.
    + apply (Hhigh (Z.to_nat idx)); [lia|done].
    + intros j y Hy Hj. assert (y < key); [|lia]. apply (Hlow j); [lia|done].
Qed.

Lemma successor_in_range (ring : list Z) (h : Z) :
  ring ≠ [] → (successor ring h < length ring)%nat.
Proof.
  intros Hne. unfold successor.
  destruct (list_find _ ring) as [[i x]|] eqn:Hfind.
  - apply list_find_Some in Hfind as (Hi & _). by eapply lookup_lt_Some.
  - destruct ring; [done|cbn; lia].
Qed.

(** On a ring that is sorted and not empty, [GetHost] returns the owner,
    in the hash-to-host map, of the entry at index [successor]; it leaves
    the state as it is. *)
Lemma GetHost_sorted (c : Consistent) (key : string) :
  ring c ≠ [] →
  Sorted Z.le (ring c) →
  let h := hashFunc c key in
  ∃ v,
    ring c !! successor (ring c) h = Some v
    ∧ (h ≤ v ∧ (∀ j w, (j < successor (ring c) h)%nat → ring c !! j = Some w → w < h)
       ∨ successor (ring c) h = 0%nat ∧ ∀ w, w ∈ ring c → w < h)
    ∧ GetHost c key = (c, Ok (default "" (virt2host c !! v))).
Proof.
  intros Hne Hs h.
  pose proof (successor_in_range (ring c) h Hne) as Hlt.
  destruct (lookup_lt_is_Some_2 (ring c) _ Hlt) as [v Hv].
  exists v. split; [done|]. split.
  - unfold successor in *.
    destruct (list_find _ (ring c)) as [[i x]|] eqn:Hfind.
    + left. apply list_find_Some in Hfind as (Hi & Hx & Hbefore).
      assert (x = v) as -> by congruence. split; [done|].
      intros j w Hj Hw. specialize (Hbefore j w Hw Hj). lia.
    + right. split; [done|]. intros w Hw.
      apply list_find_None in Hfind. rewrite Forall_forall in Hfind.
      specialize (Hfind w Hw). lia.
  - unfold GetHost. fold h. rewrite (searchKey_sorted c h Hs).
    cbn [mbind result_mbind result_bind].
    rewrite (index_lookup _ _ v); [done|lia|by rewrite Nat2Z.id].
Qed.

(** * Termination of the walk *)

Lemma sort_Search_loop_total (ring : list Z) (key : Z) (fuel : nat) :
  ∀ i j : Z,
    0 ≤ i ≤ j → j ≤ len ring → j - i ≤ Z.of_nat fuel →
    ∃ idx, sort_Search_loop fuel (at_least ring key) i j = Ok idx ∧ i ≤ idx ≤ j.
Proof.
  induction fuel as [|fuel IH]; intros i j Hij Hj Hfuel.
  - cbn. replace (i <? j) with false by (symmetry; apply Z.ltb_ge; lia).
    exists i. split; [done|lia].
  - cbn [sort_Search_loop]. destruct (Z.ltb_spec i j) as [Hlt|Hge].
    + set (h := Z.shiftr (i + j) 1).
      assert (Hh : i ≤ h < j).
      { unfold h. rewrite Z.shiftr_div_pow2 by lia. change (2 ^ 1) with 2.
        split; [apply Z.div_le_lower_bound|apply Z.div_lt_upper_bound]; lia. }
      destruct (index_in_range ring h) as (x & Hx & Hix); [lia|].
      assert (Hat : at_least ring key h = Ok (x >=? key))
        by (unfold at_least; by rewrite Hix).
      rewrite Hat. cbn [mbind result_mbind result_bind].
      destruct (x >=? key); cbn [negb].
      * destruct (IH i h) as (idx & Hrun & Hidx); try lia.
        exists idx. split; [done|lia].
      * destruct (IH (h + 1) j) as (idx & Hrun & Hidx); try lia.
        exists idx. split; [done|lia].
    + exists i. split; [done|lia].
Qed.

(** [searchKey] always returns, and with an index of the ring unless the
    ring is empty. *)
Lemma searchKey_total (c : Consistent) (key : Z) :
  ∃ idx, searchKey c key = Ok idx ∧ 0 ≤ idx ∧ (ring c ≠ [] → idx < len (ring c)).
Proof.
  unfold searchKey, sort_Search. fold (at_least (ring c) key).
  destruct (sort_Search_loop_total (ring c) key (Z.to_nat (len (ring c)))
              0 (len (ring c))) as (idx & -> & Hidx);
    try (unfold len; lia).
  cbn [mbind result_mbind result_bind].
  destruct (Z.leb_spec (len (ring c)) idx).
  - eexists. split; [done|]. split; [done|]. intros Hne.
    unfold len. destruct (ring c); [done|cbn; lia].
  - eexists. split; [done|]. split; lia.
Qed.

Lemma sumLoads_lower_bound (m : gmap string Host) (B : Z) :
  map_Forall (λ _ h, B ≤ LoadBound h) m →
  Z.of_nat (size m) * B ≤ map_fold (λ _ h acc, LoadBound h + acc) 0 m.
Proof.
  apply (map_fold_weak_ind
           (λ r m, map_Forall (λ _ h, B ≤ LoadBound h) m → Z.of_nat (size m) * B ≤ r)).
  - intros _. rewrite map_size_empty. lia.
  - intros a h m' r Hfresh IH Hall.
    apply map_Forall_insert in Hall as [Hh Hall]; [|done].
    rewrite map_size_insert_None by done. specialize (IH Hall). lia.
Qed.

(** Some registered host passes the check whenever [totalLoad] is not
    below the sum of the counters. *)
Lemma exists_headroom (c : Consistent) :
  hosts c ≠ ∅ →
  sumLoads c ≤ totalLoad c →
  ∃ a h, hosts c !! a = Some h
         ∧ LoadBound h + 1 ≤ capacity (totalLoad c) (Z.of_nat (size (hosts c))).
Proof.
  intros Hne Hsum.
  set (n := Z.of_nat (size (hosts c))).
  set (cap := capacity (totalLoad c) n).
  assert (Hn : 0 < n).
  { apply map_size_non_empty_iff in Hne. unfold n. lia. }
  destruct (decide (map_Forall (λ (_ : string) h, cap ≤ LoadBound h) (hosts c)))
    as [Hall|Hnot].
  - exfalso. apply sumLoads_lower_bound in Hall. fold (sumLoads c) in Hall. fold n in Hall.
    assert (Hcap : Z.max (totalLoad c) 0 + 1 < n * cap); [|lia].
    unfold cap. rewrite capacity_closed. cbn zeta.
    set (x := Z.max (totalLoad c) 0 + 1).
    rewrite Z.quot_div_nonneg by lia.
    assert (Hdm := Z.div_mod x n). assert (Hmod := Z.mod_pos_bound x n).
    assert (Hq : 0 ≤ x `div` n) by (apply Z.div_pos; lia).
    set (a := if x `div` n =? 0 then 1 else x `div` n).
    assert (Ha : 1 ≤ a ∧ x `div` n ≤ a).
    { unfold a. destruct (Z.eqb_spec (x `div` n) 0); lia. }
    assert (Hfl : a + 1 ≤ (5 * a + 3) `div` 4).
    { apply Z.div_le_lower_bound; lia. }
    nia.
  - apply map_not_Forall in Hnot as (a & h & Hh & Hlt); [|apply _].
    exists a, h. split; [done|]. fold n. fold cap. lia.
Qed.

(** Ring index [j] holds a virtual node of a registered host that passes
    the check. *)
Definition headroom_at (c : Consistent) (j : nat) : Prop :=
  ∃ v a h, ring c !! j = Some v
           ∧ virt2host c !! v = Some a
           ∧ hosts c !! a = Some h
           ∧ LoadBound h + 1 ≤ capacity (totalLoad c) (Z.of_nat (size (hosts c))).

Lemma headroom_at_clamped (c : Consistent) (j : nat) :
  headroom_at c j → headroom_at (clamped c) j.
Proof.
  intros (v & a & h & Hv & Ha & Hh & Hcap). exists v, a, h.
  rewrite capacity_clamped.
  by destruct (clamped_fields c) as (_ & -> & -> & -> & _).
Qed.

(** From ring index [p] the walk meets index [j], [k] steps ahead on the
    circle, or returns before it does. *)
Lemma GetHostCapacious_loop_reaches (j : nat) (k : nat) :
  ∀ (c : Consistent) (p : Z) (fuel : nat),
    Z.of_nat (size (virt2host c)) = len (ring c) →
    totalLoad c < 2 ^ 63 - 1 →
    headroom_at c j →
    0 ≤ p < len (ring c) →
    (p + Z.of_nat k) `mod` len (ring c) = Z.of_nat j →
    (k < fuel)%nat →
    returns (GetHostCapacious_loop fuel c p).2.
Proof.
  induction k as [|k IH]; intros c p fuel Hsize Ht Hroom Hp Hk Hfuel.
  all: destruct fuel as [|fuel]; [lia|].
  all: cbn [GetHostCapacious_loop].
  all: destruct (index_in_range (ring c) p Hp) as (v' & Hv' & ->).
  all: set (host' := default "" (virt2host c !! v')).
  all: pose proof Hroom as (v & a & h & Hv & Ha & Hh & Hcap).
  all: assert (Hne : hosts c ≠ ∅) by (intros He; by rewrite He in Hh).
  all: destruct (hosts c !! host') as [h'|] eqn:Hh'.
  - rewrite (checkLoadCapacity_registered c host' h') by done.
    case_bool_decide as Hacc; [done|]. exfalso. apply Hacc.
    rewrite Z.add_0_r, Z.mod_small in Hk by lia.
    assert (Z.to_nat p = j) as Hpj by lia.
    assert (v' = v) as -> by congruence.
    assert (host' = a) as -> by (unfold host'; by rewrite Ha).
    assert (h' = h) as -> by congruence. done.
  - pose proof (checkLoadCapacity_unregistered c host' Hh' Hne) as Herr.
    destruct (checkLoadCapacity c host') as [c1 r]. cbn in Herr. by subst r.
  - rewrite (checkLoadCapacity_registered c host' h') by done.
    case_bool_decide as Hacc; [done|].
    destruct (clamped_fields c) as (HT & HH & HV & HR & _).
    rewrite HV, Hsize.
    apply IH.
    + by rewrite HV, HR.
    + lia.
    + by apply headroom_at_clamped.
    + rewrite HR. destruct (Z.leb_spec (len (ring c)) (p + 1)); lia.
    + rewrite HR, <- Hk.
      destruct (Z.leb_spec (len (ring c)) (p + 1)) as [Hwrap|Hstay].
      * assert (p + 1 = len (ring c)) as Hp1 by lia.
        replace (p + Z.of_nat (S k)) with (Z.of_nat k + 1 * len (ring c)) by lia.
        rewrite Z.mod_add by lia. first [done | f_equal; lia].
      * f_equal. lia.
    + lia.
  - pose proof (checkLoadCapacity_unregistered c host' Hh' Hne) as Herr.
    destruct (checkLoadCapacity c host') as [c1 r]. cbn in Herr. by subst r.
Qed.

(** With a single entry in the hash-to-host map the walk stays on ring
    index 0; if the host there does not pass the check, no number of
    iterations ends the loop. *)
Lemma GetHostCapacious_loop_stuck (c : Consistent) (v : Z) (h : Host) :
  0 ≤ totalLoad c < 2 ^ 63 - 1 →
  size (virt2host c) = 1%nat →
  ring c !! 0%nat = Some v →
  hosts c !! default "" (virt2host c !! v) = Some h →
  ¬ LoadBound h + 1 ≤ capacity (totalLoad c) (Z.of_nat (size (hosts c))) →
  ∀ fuel, GetHostCapacious_loop fuel c 0 = (c, OutOfFuel).
Proof.
  intros Ht Hsize Hv Hh Hfull. induction fuel as [|fuel IH]; [done|].
  cbn [GetHostCapacious_loop].
  rewrite (index_lookup (ring c) 0 v) by done.
  rewrite (checkLoadCapacity_registered c _ h) by (done || lia).
  rewrite bool_decide_eq_false_2 by done.
  assert (Hc : clamped c = c).
  { unfold clamped. by replace (totalLoad c <? 0) with false
      by (symmetry; apply Z.ltb_ge; lia). }
  rewrite Hc, Hsize. exact IH.
Qed.

(** A host that was released twice without a request, unregistered,
    registered again and then given two requests. *)
Definition overdrawn : Consistent :=
  let c := Done (Done one_idle_host "a") "a" in
  let c := (UnregisterHost c "a").1 in
  let c := (RegisterHost c "a").1 in
  let c := (Inc c "a").1 in
  (Inc c "a").1.

(** Two hosts whose virtual nodes have the same hash, after two lookups
    with load bound, each followed by [Inc]. *)
Definition collided : option (Consistent * gmap string Z) :=
  let c := New zero_digest 1 (Some byte_sum) in
  let c := (RegisterHost c "ab").1 in
  let c := (RegisterHost c "ba").1 in
  assign_all capacity 2 c ["k"; "k"] ∅.

(** C6 as stated fails: the loop has no step cap, and there are states
    with a registered host, reached through the operations of the
    instance, on which it never returns.  One is [overdrawn]: one host
    with two requests and [totalLoad] 0, so that the threshold is 2.  The
    other comes from two hosts whose virtual nodes collide, so that the
    ring has two entries and the map one: after two assignments to the
    host the map names, the walk goes round index 0. *)
Lemma walk_can_run_forever :
  (size (hosts overdrawn) = 1%nat
   ∧ ¬ ∃ fuel, (GetHostCapacious fuel overdrawn "k").2 ≠ OutOfFuel)
  ∧ (∃ c caps, collided = Some (c, caps)
       ∧ size (hosts c) = 2%nat
       ∧ ¬ ∃ fuel, (GetHostCapacious fuel c "k").2 ≠ OutOfFuel).
Proof.
  split.
  - split; [by vm_compute|]. intros [fuel Hret]. apply Hret.
    unfold GetHostCapacious.
    replace (Z.of_nat (size (virt2host overdrawn)) =? 0) with false by (by vm_compute).
    replace (searchKey overdrawn (hashFunc overdrawn "k")) with (@Ok Z 0)
      by (by vm_compute).
    rewrite (GetHostCapacious_loop_stuck overdrawn 145 (mkHost "a" 2));
      [done|by vm_compute..].
  - eexists _, _. split; [by vm_compute|]. split; [by vm_compute|].
    intros [fuel Hret]. apply Hret.
    unfold GetHostCapacious.
    match goal with |- context [Z.of_nat (size (virt2host ?c)) =? 0] =>
      replace (Z.of_nat (size (virt2host c)) =? 0) with false by (by vm_compute);
      replace (searchKey c (hashFunc c "k")) with (@Ok Z 0) by (by vm_compute);
      rewrite (GetHostCapacious_loop_stuck c 243 (mkHost "ba" 2));
        [done|by vm_compute..]
    end.
Qed.

(** Under the ring invariant of the specification, and with [totalLoad]
    not below the sum of the counters, the walk returns within as many
    steps as the ring has entries. *)
Lemma GetHostCapacious_returns (c : Consistent) (key : string) :
  hosts c ≠ ∅ →
  size (virt2host c) = length (ring c) →
  (∀ a, is_Some (hosts c !! a) → ∃ v, v ∈ ring c ∧ virt2host c !! v = Some a) →
  sumLoads c ≤ totalLoad c →
  exact_range (totalLoad c) →
  returns (GetHostCapacious (length (ring c)) c key).2.
Proof.
  intros Hne Hsize Hown Hsum Ht. unfold exact_range in Ht.
  destruct (exists_headroom c Hne Hsum) as (a & h & Hh & Hcap).
  destruct (Hown a) as (v & Hv & Ha); [eauto|].
  apply list_elem_of_lookup in Hv as [j Hj].
  pose proof (lookup_lt_Some _ _ _ Hj) as Hjlt.
  assert (Hring : ring c ≠ []) by (intros He; by rewrite He in Hj).
  unfold GetHostCapacious.
  replace (Z.of_nat (size (virt2host c)) =? 0) with false
    by (symmetry; apply Z.eqb_neq; lia).
  destruct (searchKey_total c (hashFunc c key)) as (idx & -> & Hidx0 & Hidx).
  specialize (Hidx Hring). unfold len in Hidx.
  apply (GetHostCapacious_loop_reaches j
           (Z.to_nat ((Z.of_nat j - idx) `mod` len (ring c)))).
  - unfold len. lia.
  - lia.
  - by exists v, a, h.
  - unfold len. lia.
  - unfold len. 
    pose proof (Z.mod_pos_bound (Z.of_nat j - idx) (Z.of_nat (length (ring c))))
      as Hm.
    rewrite Z2Nat.id by lia. rewrite Z.add_mod_idemp_r by lia.
    replace (idx + (Z.of_nat j - idx)) with (Z.of_nat j) by lia.
    apply Z.mod_small. lia.
  - pose proof (Z.mod_pos_bound (Z.of_nat j - idx) (len (ring c))) as Hm.
    unfold len in *. lia.
Qed.

(** * The ring under registration and unregistration *)

Lemma Sorted_delete (l : list Z) (i : nat) :
  Sorted Z.le l → Sorted Z.le (take i l ++ drop (S i) l).
Proof.
  intros Hs%(Sorted_StronglySorted Z.le). apply StronglySorted_Sorted.
  destruct (l !! i) as [x|] eqn:Hx.
  - rewrite <- (take_drop_middle l i x Hx) in Hs.
    apply StronglySorted_app in Hs as (Hcross & Hl & Hr).
    apply StronglySorted_inv in Hr as [Hr _].
    apply StronglySorted_app_2; [|done..].
    intros x1 x2 H1 H2. apply Hcross; [done|]. by apply list_elem_of_further.
  - apply lookup_ge_None in Hx.
    rewrite take_ge, drop_ge, app_nil_r by lia. done.
Qed.

(** On a sorted ring the loop of [delHashIndex] ends, within as many
    iterations as the interval has entries, at an index that holds the
    value, or with [-1] if the value is not in the ring. *)
Lemma delHashIndex_loop_sorted (ring : list Z) (val : Z) (fuel : nat) :
  Sorted Z.le ring →
  ∀ l r : Z,
    0 ≤ l → r < len ring → r - l + 1 ≤ Z.of_nat fuel →
    (∀ (k : nat) x, Z.of_nat k < l → ring !! k = Some x → x < val) →
    (∀ (k : nat) x, r < Z.of_nat k → ring !! k = Some x → val < x) →
    ∃ idx, delHashIndex_loop fuel ring val (-1) l r = Ok idx
           ∧ (idx = -1 ∧ val ∉ ring
              ∨ 0 ≤ idx ∧ ring !! Z.to_nat idx = Some val).
Proof.
  intros Hs. induction fuel as [|fuel IH]; intros l r Hl Hr Hfuel Hlow Hhigh.
  all: assert (Habsent : r < l → val ∉ ring).
  all: try (intros Hrl [k Hk]%list_elem_of_lookup;
            destruct (Z.lt_ge_cases (Z.of_nat k) l) as [Hkl|Hkl];
            [specialize (Hlow k val Hkl Hk)|
             specialize (Hhigh k val ltac:(lia) Hk)]; lia).
  - cbn. replace (l <=? r) with false by (symmetry; apply Z.leb_gt; lia).
    exists (-1). split; [done|]. left. split; [done|]. apply Habsent. lia.
  - destruct (Z.le_gt_cases l r) as [Hle|Hgt].
    + set (m := (l + r) ÷ 2).
      assert (Hm : l ≤ m ≤ r).
      { unfold m. rewrite Z.quot_div_nonneg by lia.
        split; [apply Z.div_le_lower_bound|apply Z.div_le_upper_bound]; lia. }
      destruct (index_in_range ring m) as (x & Hx & Hix); [lia|].
      rewrite (delHashIndex_loop_step fuel ring val (-1) l r x) by done.
      fold m.
      destruct (Z.eqb_spec x val) as [->|Hne].
      { exists m. split; [done|]. right. split; [lia|done]. }
      destruct (Z.ltb_spec x val) as [Hlt|Hge].
      * apply IH; try lia; try done.
        intros k y Hk Hy. assert (y ≤ x); [|lia].
        apply (Sorted_lookup_le ring k (Z.to_nat m)); try done. lia.
      * replace (x >? val) with true by (symmetry; apply Z.gtb_lt; lia).
        apply IH; try lia; try done.
        intros k y Hk Hy. assert (x ≤ y); [|lia].
        apply (Sorted_lookup_le ring (Z.to_nat m) k); try done. lia.
    + cbn [delHashIndex_loop].
      replace (l <=? r) with false by (symmetry; apply Z.leb_gt; lia).
      exists (-1). split; [done|]. left. split; [done|]. apply Habsent. lia.
Qed.

(** [delHashIndex] on a sorted ring: one occurrence of the value leaves
    the ring, which stays sorted; a value that is not there changes
    nothing.  The call neither panics nor runs on. *)
Lemma delHashIndex_sorted (c : Consistent) (val : Z) :
  Sorted Z.le (ring c) →
  ∃ ring', delHashIndex c val = (set_ring ring' c, Ok tt)
           ∧ Sorted Z.le ring'
           ∧ (val ∈ ring c ∧ ring c ≡ₚ (val :: ring')
              ∨ (val ∉ ring c) ∧ ring' = ring c).
Proof.
  intros Hs. unfold delHashIndex.
  destruct (delHashIndex_loop_sorted (ring c) val (length (ring c)) Hs
              0 (len (ring c) - 1)) as (idx & -> & Hidx);
    try (unfold len; lia).
  { intros k x Hk Hx. apply lookup_lt_Some in Hx. unfold len in Hk. lia. }
  destruct Hidx as [[-> Habsent]|[Hidx Hval]].
  - exists (ring c). cbn. split; [by destruct c|]. split; [done|]. by right.
  - replace (idx =? -1) with false by (symmetry; apply Z.eqb_neq; lia).
    cbn [negb]. eexists. split; [done|].
    replace (Z.to_nat (idx + 1)) with (S (Z.to_nat idx)) by lia.
    split; [by apply Sorted_delete|]. left.
    split; [by eapply list_elem_of_lookup_2|].
    rewrite <- delete_take_drop. by apply delete_Permutation.
Qed.

Lemma UnregisterHost_loop_sorted (hostName : string) (replicas : list Z) :
  ∀ (c : Consistent) (rest : list Z),
    Sorted Z.le (ring c) →
    ring c ≡ₚ ((λ i, hashFunc c (hostReplicaFormat hostName i)) <$> replicas) ++ rest →
    ∃ ring', UnregisterHost_loop c hostName replicas = (set_ring ring' c, Ok tt)
             ∧ Sorted Z.le ring'
             ∧ ring' ≡ₚ rest.
Proof.
  induction replicas as [|i replicas IH]; intros c rest Hs Hperm.
  - exists (ring c). cbn. split; [by destruct c|]. done.
  - cbn [UnregisterHost_loop]. cbn [fmap list_fmap] in Hperm.
    set (val := hashFunc c (hostReplicaFormat hostName i)) in *.
    destruct (delHashIndex_sorted c val Hs) as (ring1 & -> & Hs1 & Hcase).
    destruct Hcase as [[_ Hp1]|[Habsent _]].
    + destruct (IH (set_ring ring1 c) rest) as (ring2 & Hrun & Hs2 & Hp2).
      * done.
      * cbn [ring set_ring hashFunc]. rewrite Hp1 in Hperm.
        by apply Permutation_cons_inv in Hperm.
      * exists ring2. rewrite Hrun. split; [by destruct c|]. done.
    + exfalso. apply Habsent. rewrite Hperm. apply list_elem_of_here.
Qed.

(** The virtual nodes of the registered hosts. *)
Definition virtual_nodes (c : Consistent) : list Z :=
  (map_to_list (hosts c)).*1 ≫= replicaHashes c.

(** The ring invariant: the ring is sorted and holds, with their
    multiplicities, the virtual-node hashes of the registered hosts; each
    of them has an entry in the hash-to-host map. *)
Definition ring_inv (c : Consistent) : Prop :=
  Sorted Z.le (ring c)
  ∧ ring c ≡ₚ virtual_nodes c
  ∧ (∀ v, v ∈ ring c → is_Some (virt2host c !! v))
  ∧ 0 < replicaNum c.

Lemma virtual_nodes_length (c : Consistent) :
  0 < replicaNum c →
  len (virtual_nodes c) = Z.of_nat (size (hosts c)) * replicaNum c.
Proof.
  intros Hr. unfold virtual_nodes, len.
  rewrite <- length_map_to_list, <- (length_fmap fst (map_to_list (hosts c))).
  induction ((map_to_list (hosts c)).*1) as [|a l IH]; [done|].
  cbn [mbind list_bind]. rewrite length_app, Nat2Z.inj_add, IH.
  pose proof (replicaHashes_length c a) as Hlen. unfold len in Hlen.
  rewrite Hlen by lia. cbn [length]. lia.
Qed.

Lemma foldl_insert_lookup (hostName : string) (hs : list Z) :
  ∀ (m : gmap Z string) (v : Z),
    is_Some (m !! v) ∨ v ∈ hs →
    is_Some (foldl (λ m v, <[v := hostName]> m) m hs !! v).
Proof.
  induction hs as [|x hs IH]; intros m v Hv; cbn.
  - destruct Hv as [Hv|Hv]; [done|by apply elem_of_nil in Hv].
  - apply IH. destruct (decide (x = v)) as [->|Hne].
    + left. rewrite lookup_insert_eq. eauto.
    + destruct Hv as [Hv|Hv].
      * left. by rewrite lookup_insert_ne.
      * apply elem_of_cons in Hv as [->|Hv]; [done|by right].
Qed.

Lemma RegisterHost_ring_inv (c : Consistent) (hostName : string) :
  ring_inv c → ring_inv (RegisterHost c hostName).1.
Proof.
  intros (Hs & Hperm & Hmap & Hr).
  destruct (hosts c !! hostName) as [h|] eqn:Hh.
  - rewrite RegisterHost_known by eauto. done.
  - rewrite RegisterHost_fresh by done. cbn [fst]. unfold ring_inv.
    cbn [ring virt2host replicaNum].
    split; [apply sort_Slice_Sorted|]. split; [|split; [|done]].
    + etrans; [apply sort_Slice_Permutation|].
      etrans; [apply Permutation_app_comm|].
      unfold virtual_nodes at 1. unfold replicaHashes at 2.
      cbn [hosts hashFunc replicaNum]. fold (replicaHashes c).
      rewrite (fmap_Permutation fst _ _ (map_to_list_insert _ _ _ Hh)).
      cbn [fmap list_fmap fst mbind list_bind].
      apply Permutation_app; [done|]. exact Hperm.
    + intros v Hv. rewrite sort_Slice_Permutation in Hv.
      apply foldl_insert_lookup. apply elem_of_app in Hv as [Hv|Hv]; eauto.
Qed.

Lemma UnregisterHost_ring_inv (c : Consistent) (hostName : string) :
  ring_inv c →
  ring_inv (UnregisterHost c hostName).1 ∧ returns (UnregisterHost c hostName).2.
Proof.
  intros (Hs & Hperm & Hmap & Hr). unfold UnregisterHost.
  destruct (hosts c !! hostName) as [h|] eqn:Hh; [|done].
  set (c1 := set_hosts (delete hostName (hosts c)) c).
  destruct (UnregisterHost_loop_sorted hostName (seqZ 0 (replicaNum c1)) c1
              (virtual_nodes c1)) as (ring' & -> & Hs' & Hperm').
  - done.
  - etrans; [exact Hperm|]. unfold virtual_nodes.
    rewrite <- (fmap_Permutation fst _ _ (map_to_list_delete _ _ _ Hh)).
    done.
  - split; [|done]. cbn [fst]. unfold ring_inv. cbn [ring set_ring].
    split; [done|]. split; [done|]. split; [|done].
    intros v Hv. cbn [virt2host set_ring c1 set_hosts]. apply Hmap.
    rewrite Hperm' in Hv. rewrite Hperm. unfold virtual_nodes.
    rewrite <- (fmap_Permutation fst _ _ (map_to_list_delete _ _ _ Hh)).
    cbn [fmap list_fmap fst mbind list_bind]. apply elem_of_app. by right.
Qed.

(** * Reachable states *)

(** The calls a client can make on an instance. *)
Inductive call : Type :=
| CallRegisterHost (hostName : string)
| CallUnregisterHost (hostName : string)
| CallUpdateLoad (host : string) (load : Z)
| CallHosts
| CallGetHost (key : string)
| CallGetHostCapacious (fuel : nat) (key : string)
| CallInc (hostName : string)
| CallDone (host : string)
| CallGetLoads
| CallMaxLoad.

(** The state a call leaves behind. *)
Definition after (c : Consistent) (k : call) : Consistent :=
  match k with
  | CallRegisterHost hostName => (RegisterHost c hostName).1
  | CallUnregisterHost hostName => (UnregisterHost c hostName).1
  | CallUpdateLoad host load => UpdateLoad c host load
  | CallHosts => (Hosts c).1
  | CallGetHost key => (GetHost c key).1
  | CallGetHostCapacious fuel key => (GetHostCapacious fuel c key).1
  | CallInc hostName => (Inc c hostName).1
  | CallDone host => Done c host
  | CallGetLoads => (GetLoads c).1
  | CallMaxLoad => (MaxLoad c).1
  end.

Inductive reachable : Consistent → Prop :=
| reachable_New Sum512 r f : reachable (New Sum512 r f)
| reachable_after c k : reachable c → reachable (after c k).

(** Two states with the same registered names, hash function, replica
    count, ring and hash-to-host map. *)
Definition same_ring (c c' : Consistent) : Prop :=
  dom (hosts c') = dom (hosts c)
  ∧ hashFunc c' = hashFunc c
  ∧ replicaNum c' = replicaNum c
  ∧ ring c' = ring c
  ∧ virt2host c' = virt2host c.

Lemma elem_of_keys (m : gmap string Host) (a : string) :
  a ∈ (map_to_list m).*1 ↔ a ∈ dom m.
Proof.
  rewrite elem_of_dom, list_elem_of_fmap. split.
  - intros [[k h] [-> Hin]]. apply elem_of_map_to_list in Hin. cbn. eauto.
  - intros [h Hh]. exists (a, h). split; [done|]. by apply elem_of_map_to_list.
Qed.

Lemma virtual_nodes_dom (c c' : Consistent) :
  same_ring c c' → virtual_nodes c' ≡ₚ virtual_nodes c.
Proof.
  intros (Hdom & Hhash & Hrep & _). unfold virtual_nodes.
  assert (Hrh : replicaHashes c' = replicaHashes c).
  { unfold replicaHashes. by rewrite Hhash, Hrep. }
  rewrite Hrh. apply bind_Permutation.
  apply NoDup_Permutation; [apply NoDup_fst_map_to_list..|].
  intros a. rewrite !elem_of_keys. by rewrite Hdom.
Qed.

Lemma same_ring_inv (c c' : Consistent) :
  same_ring c c' → ring_inv c → ring_inv c'.
Proof.
  intros Hsame (Hs & Hperm & Hmap & Hr).
  pose proof (virtual_nodes_dom c c' Hsame) as Hvn.
  destruct Hsame as (Hdom & Hhash & Hrep & Hring & Hv2h).
  unfold ring_inv. rewrite Hring, Hv2h, Hrep, Hvn. done.
Qed.

Lemma clamped_same_ring (c : Consistent) : same_ring c (clamped c).
Proof.
  destruct (clamped_fields c) as (_ & Hh & Hv & Hr & Hf & Hn).
  unfold same_ring. by rewrite Hh, Hv, Hr, Hf, Hn.
Qed.

Lemma GetHostCapacious_loop_state (fuel : nat) :
  ∀ (c : Consistent) (i : Z),
    (GetHostCapacious_loop fuel c i).1 = c
    ∨ (GetHostCapacious_loop fuel c i).1 = clamped c.
Proof.
  induction fuel as [|fuel IH]; intros c i; [by left|].
  cbn [GetHostCapacious_loop].
  destruct (index (ring c) i) as [v| | |]; try by left.
  pose proof (checkLoadCapacity_state c (default "" (virt2host c !! v))) as Hst.
  destruct (checkLoadCapacity c _) as [c1 [b| | |]]; cbn in Hst; subst c1;
    try by right.
  destruct b; [by right|]. right.
  destruct (IH (clamped c)
              (if Z.of_nat (size (virt2host (clamped c))) <=? i + 1 then 0 else i + 1))
    as [->| ->]; [done|apply clamped_idem].
Qed.

Lemma GetHostCapacious_state (fuel : nat) (c : Consistent) (key : string) :
  (GetHostCapacious fuel c key).1 = c ∨ (GetHostCapacious fuel c key).1 = clamped c.
Proof.
  unfold GetHostCapacious.
  destruct (Z.of_nat (size (virt2host c)) =? 0); [by left|].
  destruct (searchKey c (hashFunc c key)); try by left.
  apply GetHostCapacious_loop_state.
Qed.

Lemma after_ring_inv (c : Consistent) (k : call) :
  ring_inv c → ring_inv (after c k).
Proof.
  intros Hinv. destruct k as [hostName|hostName|host load| |key|fuel key|hostName|host| |];
    cbn [after]; try done.
  - by apply RegisterHost_ring_inv.
  - by apply UnregisterHost_ring_inv.
  - apply (same_ring_inv c); [|done]. unfold UpdateLoad.
    destruct (hosts c !! host) as [h|] eqn:Hh; [|done].
    unfold same_ring. cbn. rewrite dom_insert_L.
    assert (Hin : host ∈ dom (hosts c)) by (apply elem_of_dom; eauto).
    split; [by apply subseteq_union_1_L, singleton_subseteq_l|done].
  - destruct (GetHostCapacious_state fuel c key) as [->| ->]; [done|].
    apply (same_ring_inv c); [apply clamped_same_ring|done].
  - apply (same_ring_inv c); [|done]. unfold Inc.
    destruct (hosts c !! hostName) as [h|] eqn:Hh; [|done].
    unfold same_ring. cbn. rewrite dom_insert_L.
    assert (Hin : hostName ∈ dom (hosts c)) by (apply elem_of_dom; eauto).
    split; [by apply subseteq_union_1_L, singleton_subseteq_l|done].
  - apply (same_ring_inv c); [|done]. unfold Done.
    destruct (hosts c !! host) as [h|] eqn:Hh; [|done].
    unfold same_ring. cbn. rewrite dom_insert_L.
    assert (Hin : host ∈ dom (hosts c)) by (apply elem_of_dom; eauto).
    split; [by apply subseteq_union_1_L, singleton_subseteq_l|done].
  - apply (same_ring_inv c); [|done]. unfold MaxLoad. cbn [fst].
    by destruct (totalLoad c =? 0).
Qed.

Lemma New_ring_inv Sum512 (r : Z) (f : option (string → Z)) :
  ring_inv (New Sum512 r f).
Proof.
  unfold ring_inv, New. cbn. split; [constructor|]. split.
  - unfold virtual_nodes. cbn. by rewrite map_to_list_empty.
  - split; [by intros v Hv%elem_of_nil|].
    unfold defaultReplicaNum. destruct (Z.leb_spec r 0); lia.
Qed.

(** In every reachable state the ring is sorted and holds exactly the
    virtual-node hashes of the registered hosts, [replicaNum] for each, and
    every ring entry has an owner in the hash-to-host map. *)
Lemma reachable_ring_inv (c : Consistent) : reachable c → ring_inv c.
Proof.
  induction 1 as [Sum512 r f|c k _ IH]; [apply New_ring_inv|by apply after_ring_inv].
Qed.

Lemma reachable_ring_sorted (c : Consistent) : reachable c → Sorted Z.le (ring c).
Proof. by intros (Hs & _)%reachable_ring_inv. Qed.

Lemma reachable_ring_length (c : Consistent) :
  reachable c → len (ring c) = Z.of_nat (size (hosts c)) * replicaNum c.
Proof.
  intros (_ & Hperm & _ & Hr)%reachable_ring_inv.
  rewrite <- virtual_nodes_length by done. unfold len.
  by rewrite (Permutation_length Hperm).
Qed.

Lemma reachable_ring_owned (c : Consistent) (v : Z) :
  reachable c → v ∈ ring c → is_Some (virt2host c !! v).
Proof. intros (_ & _ & Hmap & _)%reachable_ring_inv. apply Hmap. Qed.

(** On a reachable state [UnregisterHost] returns: with success, or with
    [ErrHostNotFound]. *)
Lemma reachable_UnregisterHost_returns (c : Consistent) (hostName : string) :
  reachable c → returns (UnregisterHost c hostName).2.
Proof. intros Hinv%reachable_ring_inv. by apply UnregisterHost_ring_inv. Qed.

(** * Successor lookup on reachable states *)

(** C8.  In every reachable state whose ring is not empty, and for every
    key, [GetHost] returns the host that the hash-to-host map gives for the
    first ring entry whose hash is at least the hash of the key, and for
    the entry at index 0 if the hash of the key is above every entry.  It
    leaves the state as it is, so a second call with the same key returns
    the same host. *)
Theorem GetHost_successor (c : Consistent) (key : string) :
  reachable c →
  ring c ≠ [] →
  let h := hashFunc c key in
  ∃ v host,
    ring c !! successor (ring c) h = Some v
    ∧ (h ≤ v ∧ (∀ j w, (j < successor (ring c) h)%nat → ring c !! j = Some w → w < h)
       ∨ successor (ring c) h = 0%nat ∧ ∀ w, w ∈ ring c → w < h)
    ∧ virt2host c !! v = Some host
    ∧ GetHost c key = (c, Ok host)
    ∧ GetHost (GetHost c key).1 key = GetHost c key.
Proof.
  intros Hreach Hne h.
  destruct (GetHost_sorted c key Hne (reachable_ring_sorted c Hreach))
    as (v & Hv & Hfirst & Hget).
  destruct (reachable_ring_owned c v Hreach) as [host Hhost];
    [by eapply list_elem_of_lookup_2|].
  rewrite Hhost in Hget. cbn [default] in Hget.
  exists v, host. rewrite Hget. done.
Qed.

Lemma three_hosts_reachable : reachable three_hosts.
Proof.
  apply (reachable_after _ (CallRegisterHost "c")).
  apply (reachable_after _ (CallRegisterHost "b")).
  apply (reachable_after _ (CallRegisterHost "a")).
  apply reachable_New.
Defined.

Lemma GetHost_successor_witness :
  (∃ v host,
     ring three_hosts !! successor (ring three_hosts) (byte_sum "b0") = Some v
     ∧ virt2host three_hosts !! v = Some host
     ∧ GetHost three_hosts "b0" = (three_hosts, Ok host))
  ∧ (GetHost three_hosts "b0").2 = Ok "b"
  ∧ (GetHost three_hosts "zzz").2 = Ok "a".
Proof.
  assert (Hne : ring three_hosts ≠ []) by (by vm_compute).
  split; [|split; by vm_compute].
  destruct (GetHost_successor three_hosts "b0" three_hosts_reachable Hne)
    as (v & host & Hv & _ & Hhost & Hget & _).
  exists v, host. split; [exact Hv|]. split; [exact Hhost|exact Hget].
Defined.

(** * Termination of the walk on reachable states *)

(** C6, amended.  On every reachable state with at least one registered
    host in which the hash-to-host map has as many entries as the ring,
    every registered host owns a ring entry, and [totalLoad] is not below
    the sum of the counters and is below 2^50 in magnitude, the forward
    walk of [GetHostCapacious] returns, for every key, within one full
    traversal of the ring: after at most as many candidate steps as the
    ring has entries, which are [replicaNum] for each registered host. *)
Theorem GetHostCapacious_terminates (c : Consistent) (key : string) :
  reachable c →
  hosts c ≠ ∅ →
  size (virt2host c) = length (ring c) →
  (∀ a, is_Some (hosts c !! a) → ∃ v, v ∈ ring c ∧ virt2host c !! v = Some a) →
  sumLoads c ≤ totalLoad c →
  exact_range (totalLoad c) →
  returns (GetHostCapacious (length (ring c)) c key).2
  ∧ len (ring c) = Z.of_nat (size (hosts c)) * replicaNum c.
Proof.
  intros Hreach Hne Hsize Hown Hsum Ht. split.
  - by apply GetHostCapacious_returns.
  - by apply reachable_ring_length.
Qed.

(** Three hosts, two requests in flight and both on host [a]: for the key
    [k] the walk starts on [a], which is at its threshold, and goes on. *)
Definition a_loaded : Consistent := (Inc (Inc three_hosts "a").1 "a").1.

Lemma a_loaded_reachable : reachable a_loaded.
Proof.
  apply (reachable_after _ (CallInc "a")).
  apply (reachable_after _ (CallInc "a")).
  exact three_hosts_reachable.
Defined.

Lemma GetHostCapacious_terminates_witness :
  (returns (GetHostCapacious (length (ring a_loaded)) a_loaded "k").2
   ∧ len (ring a_loaded) = Z.of_nat (size (hosts a_loaded)) * replicaNum a_loaded)
  ∧ (GetHost a_loaded "k").2 = Ok "a"
  ∧ (GetHostCapacious 1 a_loaded "k").2 = OutOfFuel
  ∧ (GetHostCapacious 2 a_loaded "k").2 = Ok "b".
Proof.
  split; [|split; [|split]; by vm_compute].
  apply GetHostCapacious_terminates.
  - exact a_loaded_reachable.
  - intros He. assert (Hs : size (hosts a_loaded) = 0%nat) by (by rewrite He).
    by vm_compute in Hs.
  - by vm_compute.
  - intros a Ha.
    assert (Hdom : a ∈ dom (hosts a_loaded)) by (by apply elem_of_dom).
    assert (Hall : set_Forall (λ a, ∃ v, v ∈ ring a_loaded
                                        ∧ virt2host a_loaded !! v = Some a)
                     (dom (hosts a_loaded))); [|by apply Hall].
    replace (dom (hosts a_loaded)) with ({["a"; "b"; "c"]} : gset string)
      by (apply (bool_decide_unpack _); by vm_compute).
    intros x Hx.
    apply elem_of_union in Hx as [Hx|Hx]; [apply elem_of_union in Hx as [Hx|Hx]|];
      apply elem_of_singleton in Hx; subst x.
    + exists (byte_sum "a0"). split; [|by vm_compute].
      apply list_elem_of_lookup. exists 0%nat. by vm_compute.
    + exists (byte_sum "b0"). split; [|by vm_compute].
      apply list_elem_of_lookup. exists 1%nat. by vm_compute.
    + exists (byte_sum "c0"). split; [|by vm_compute].
      apply list_elem_of_lookup. exists 2%nat. by vm_compute.
  - by vm_compute.
  - unfold exact_range. by vm_compute.
Defined.

(** * Further properties of the ring *)

(** The value a successor lookup lands on: the least ring entry that is at
    least [h], and the least entry of all if none is. *)
Definition is_successor (l : list Z) (h v : Z) : Prop :=
  v ∈ l
  ∧ (h ≤ v ∧ (∀ w, w ∈ l → h ≤ w → v ≤ w)
     ∨ (∀ w, w ∈ l → w < h) ∧ (∀ w, w ∈ l → v ≤ w)).

Lemma is_successor_unique (l : list Z) (h v v' : Z) :
  is_successor l h v → is_successor l h v' → v = v'.
Proof.
  intros [Hv [[Hge Hmin]|[Hall Hmin]]] [Hv' [[Hge' Hmin']|[Hall' Hmin']]].
  - specialize (Hmin v' Hv' Hge'). specialize (Hmin' v Hv Hge). lia.
  - specialize (Hall' v Hv). lia.
  - specialize (Hall v' Hv'). lia.
  - specialize (Hmin v' Hv'). specialize (Hmin' v Hv). lia.
Qed.

(** The successor in a list that lies in a part of it is the successor in
    that part. *)
Lemma is_successor_sub (l l' : list Z) (h v : Z) :
  (∀ w, w ∈ l → w ∈ l') → is_successor l' h v → v ∈ l → is_successor l h v.
Proof.
  intros Hsub [_ [[Hge Hmin]|[Hall Hmin]]] Hv; (split; [done|]).
  - left. split; [done|]. intros w Hw. apply Hmin. by apply Hsub.
  - right. split; intros w Hw; [apply Hall|apply Hmin]; by apply Hsub.
Qed.

Lemma successor_value (l : list Z) (h : Z) :
  l ≠ [] → Sorted Z.le l →
  ∃ v, l !! successor l h = Some v ∧ is_successor l h v.
Proof.
  intros Hne Hs.
  pose proof (successor_in_range l h Hne) as Hlt.
  destruct (lookup_lt_is_Some_2 l _ Hlt) as [v Hv].
  exists v. split; [done|]. split; [by eapply list_elem_of_lookup_2|].
  unfold successor in *.
  destruct (list_find _ l) as [[i x]|] eqn:Hfind.
  - left. apply list_find_Some in Hfind as (Hi & Hx & Hbefore).
    assert (x = v) as -> by congruence. split; [done|].
    intros w [k Hk]%list_elem_of_lookup Hw.
    destruct (Nat.lt_ge_cases k i) as [Hki|Hki].
    + specialize (Hbefore k w Hk Hki). lia.
    + by apply (Sorted_lookup_le l i k).
  - right. apply list_find_None in Hfind. rewrite Forall_forall in Hfind. split.
    + intros w Hw. specialize (Hfind w Hw). lia.
    + intros w [k Hk]%list_elem_of_lookup.
      apply (Sorted_lookup_le l 0 k); [done|lia|done..].
Qed.

(** [GetHost] on a sorted, non-empty ring, by the value it lands on. *)
Lemma GetHost_value (c : Consistent) (key : string) :
  ring c ≠ [] → Sorted Z.le (ring c) →
  ∃ v, is_successor (ring c) (hashFunc c key) v
       ∧ GetHost c key = (c, Ok (default "" (virt2host c !! v))).
Proof.
  intros Hne Hs.
  destruct (successor_value (ring c) (hashFunc c key) Hne Hs) as (v & Hv & Hsucc).
  exists v. split; [done|].
  unfold GetHost. rewrite (searchKey_sorted c _ Hs).
  cbn [mbind result_mbind result_bind].
  rewrite (index_lookup _ _ v); [done|lia|by rewrite Nat2Z.id].
Qed.

Lemma foldl_insert_in (hostName : string) (hs : list Z) :
  ∀ (m : gmap Z string) (v : Z),
    v ∈ hs → foldl (λ m v, <[v := hostName]> m) m hs !! v = Some hostName.
Proof.
  induction hs as [|x hs IH]; intros m v Hv; [by apply elem_of_nil in Hv|].
  cbn [foldl]. destruct (decide (v ∈ hs)) as [Hin|Hnotin]; [by apply IH|].
  apply elem_of_cons in Hv as [->|Hv]; [|done].
  clear IH. revert m. induction hs as [|y hs IH]; intros m; cbn [foldl].
  - apply lookup_insert_eq.
  - apply not_elem_of_cons in Hnotin as [Hne Hnotin].
    rewrite insert_insert_ne by done. by apply IH.
Qed.

Lemma foldl_insert_notin (hostName : string) (hs : list Z) :
  ∀ (m : gmap Z string) (v : Z),
    v ∉ hs → foldl (λ m v, <[v := hostName]> m) m hs !! v = m !! v.
Proof.
  induction hs as [|x hs IH]; intros m v Hv; [done|].
  apply not_elem_of_cons in Hv as [Hne Hv].
  cbn [foldl]. rewrite IH by done. by apply lookup_insert_ne.
Qed.

Lemma four_hosts_reachable : reachable four_hosts.
Proof.
  apply (reachable_after _ (CallRegisterHost "d")). exact three_hosts_reachable.
Defined.

(** Unregistering a registered host under the ring invariant. *)
Lemma UnregisterHost_registered (c : Consistent) (hostName : string) (h : Host) :
  ring_inv c →
  hosts c !! hostName = Some h →
  ∃ ring',
    UnregisterHost c hostName
    = (set_ring ring' (set_hosts (delete hostName (hosts c)) c), Ok tt)
    ∧ Sorted Z.le ring'
    ∧ ring c ≡ₚ replicaHashes c hostName ++ ring'.
Proof.
  intros (Hs & Hperm & Hmap & Hr) Hh. unfold UnregisterHost. rewrite Hh.
  set (c1 := set_hosts (delete hostName (hosts c)) c).
  assert (Hsplit : ring c ≡ₚ replicaHashes c hostName ++ virtual_nodes c1).
  { etrans; [exact Hperm|]. unfold virtual_nodes.
    rewrite <- (fmap_Permutation fst _ _ (map_to_list_delete _ _ _ Hh)). done. }
  destruct (UnregisterHost_loop_sorted hostName (seqZ 0 (replicaNum c1)) c1
              (virtual_nodes c1) Hs Hsplit) as (ring' & -> & Hs' & Hperm').
  exists ring'. split; [done|]. split; [done|].
  etrans; [exact Hsplit|]. by apply Permutation_app.
Qed.

(** X1.  In every reachable state the ring is sorted in ascending order
    and holds, with their multiplicities, exactly the virtual-node hashes
    [hashFunc(name || i)], [i] in [0, replicaNum), of the registered hosts;
    so it has [replicaNum] entries for each registered host, and each of
    its entries has an owner in the hash-to-host map. *)
Theorem ring_invariant (c : Consistent) :
  reachable c →
  Sorted Z.le (ring c)
  ∧ ring c ≡ₚ virtual_nodes c
  ∧ len (ring c) = Z.of_nat (size (hosts c)) * replicaNum c
  ∧ (∀ v, v ∈ ring c → is_Some (virt2host c !! v))
  ∧ 0 < replicaNum c.
Proof.
  intros Hreach. pose proof (reachable_ring_inv c Hreach) as (Hs & Hp & Hm & Hr).
  repeat split; try done. by apply reachable_ring_length.
Qed.

Lemma ring_invariant_witness :
  Sorted Z.le (ring four_hosts)
  ∧ ring four_hosts ≡ₚ virtual_nodes four_hosts
  ∧ len (ring four_hosts) = Z.of_nat (size (hosts four_hosts)) * replicaNum four_hosts
  ∧ (∀ v, v ∈ ring four_hosts → is_Some (virt2host four_hosts !! v))
  ∧ 0 < replicaNum four_hosts.
Proof. apply ring_invariant. exact four_hosts_reachable. Defined.

(** X2.  On a reachable state [UnregisterHost] never panics and always
    finishes.  For a name that is not registered it returns
    [ErrHostNotFound] and changes nothing.  For a registered name it
    succeeds, removes the name from [hosts], and takes out of the ring
    exactly the virtual-node hashes of that host, one occurrence for each,
    leaving the ring sorted; [totalLoad] and the hash-to-host map stay as
    they were. *)
Theorem UnregisterHost_outcome (c : Consistent) (hostName : string) :
  reachable c →
  (hosts c !! hostName = None →
   UnregisterHost c hostName = (c, Error ErrHostNotFound))
  ∧ (is_Some (hosts c !! hostName) →
     ∃ ring',
       UnregisterHost c hostName
       = (mkConsistent (replicaNum c) (totalLoad c) (hashFunc c)
            (delete hostName (hosts c)) (virt2host c) ring',
          Ok tt)
       ∧ Sorted Z.le ring'
       ∧ ring c ≡ₚ replicaHashes c hostName ++ ring').
Proof.
  intros Hinv%reachable_ring_inv. split.
  - intros Hh. unfold UnregisterHost. by rewrite Hh.
  - intros [h Hh].
    destruct (UnregisterHost_registered c hostName h Hinv Hh)
      as (ring' & Hrun & Hs & Hp).
    exists ring'. by rewrite Hrun.
Qed.

Lemma UnregisterHost_outcome_witness :
  UnregisterHost three_hosts "zz" = (three_hosts, Error ErrHostNotFound)
  ∧ ∃ ring',
      UnregisterHost three_hosts "b"
      = (mkConsistent (replicaNum three_hosts) (totalLoad three_hosts)
           (hashFunc three_hosts) (delete "b" (hosts three_hosts))
           (virt2host three_hosts) ring',
         Ok tt)
      ∧ Sorted Z.le ring'
      ∧ ring three_hosts ≡ₚ replicaHashes three_hosts "b" ++ ring'.
Proof.
  destruct (UnregisterHost_outcome three_hosts "zz" three_hosts_reachable) as [Hno _].
  destruct (UnregisterHost_outcome three_hosts "b" three_hosts_reachable) as [_ Hyes].
  split.
  - apply Hno. reflexivity.
  - apply Hyes. exists (mkHost "b" 0). reflexivity.
Defined.

(** X3.  [delHashIndex] never panics and always finishes, whatever the
    ring holds.  On a sorted ring it removes one occurrence of the value if
    the value is in the ring, and leaves the ring as it is if not; the ring
    stays sorted and nothing but the ring changes. *)
Theorem delHashIndex_removes_one (c : Consistent) (val : Z) :
  (delHashIndex c val).2 = Ok tt
  ∧ (Sorted Z.le (ring c) →
     ∃ ring',
       (delHashIndex c val).1 = set_ring ring' c
       ∧ Sorted Z.le ring'
       ∧ (val ∈ ring c → ring c ≡ₚ val :: ring')
       ∧ (val ∉ ring c → ring' = ring c)).
Proof.
  split; [apply delHashIndex_returns|]. intros Hs.
  destruct (delHashIndex_sorted c val Hs) as (ring' & Hrun & Hs' & Hcase).
  exists ring'. rewrite Hrun. split; [done|]. split; [done|].
  destruct Hcase as [[Hin Hp]|[Hout ->]]; split; done.
Qed.

Lemma delHashIndex_removes_one_witness :
  ∃ ring',
    (delHashIndex three_hosts (byte_sum "b0")).1 = set_ring ring' three_hosts
    ∧ Sorted Z.le ring'
    ∧ (byte_sum "b0" ∈ ring three_hosts → ring three_hosts ≡ₚ byte_sum "b0" :: ring')
    ∧ (byte_sum "b0" ∉ ring three_hosts → ring' = ring three_hosts).
Proof.
  apply (delHashIndex_removes_one three_hosts (byte_sum "b0")).
  change (ring three_hosts) with (sort_Slice (ring three_hosts)).
  apply sort_Slice_Sorted.
Defined.

(** X4.  Registering a host that is not registered and unregistering it
    again, on a reachable state, restores the registered hosts with their
    counters, the ring and [totalLoad] exactly; both calls succeed.  Only
    the hash-to-host map differs: it keeps the entries the registration
    wrote. *)
Theorem register_unregister_round_trip (c : Consistent) (hostName : string) :
  reachable c →
  hosts c !! hostName = None →
  let c1 := (RegisterHost c hostName).1 in
  (RegisterHost c hostName).2 = Ok tt
  ∧ UnregisterHost c1 hostName = (set_virt2host (virt2host c1) c, Ok tt).
Proof.
  intros Hreach Hfresh c1.
  pose proof (reachable_ring_inv c Hreach) as Hinv.
  pose proof (RegisterHost_ring_inv c hostName Hinv) as Hinv1. fold c1 in Hinv1.
  assert (Hc1 : replicaNum c1 = replicaNum c ∧ totalLoad c1 = totalLoad c
                ∧ hashFunc c1 = hashFunc c
                ∧ hosts c1 = <[hostName := mkHost hostName 0]> (hosts c)
                ∧ ring c1 = sort_Slice (ring c ++ replicaHashes c hostName)).
  { unfold c1. by rewrite RegisterHost_fresh. }
  destruct Hc1 as (Hrep & Htot & Hhash & Hhosts & Hring1).
  split; [by rewrite RegisterHost_fresh|].
  destruct (UnregisterHost_registered c1 hostName (mkHost hostName 0) Hinv1)
    as (ring' & -> & Hs' & Hp).
  { rewrite Hhosts. apply lookup_insert_eq. }
  assert (Hrh : replicaHashes c1 hostName = replicaHashes c hostName).
  { unfold replicaHashes. by rewrite Hhash, Hrep. }
  rewrite Hrh, Hring1 in Hp.
  assert (Hring : ring' = ring c).
  { apply (Sorted_unique Z.le); [done|apply Hinv|].
    apply (Permutation_app_inv_l (replicaHashes c hostName)).
    etrans; [|apply Permutation_app_comm].
    etrans; [|apply sort_Slice_Permutation].
    by symmetry. }
  rewrite Hring. f_equal. unfold set_ring, set_hosts, set_virt2host.
  cbn. rewrite Hrep, Htot, Hhash, Hhosts, delete_insert_id by done. done.
Qed.

Lemma register_unregister_round_trip_witness :
  let c1 := (RegisterHost three_hosts "d").1 in
  (RegisterHost three_hosts "d").2 = Ok tt
  ∧ UnregisterHost c1 "d" = (set_virt2host (virt2host c1) three_hosts, Ok tt).
Proof.
  apply register_unregister_round_trip.
  - exact three_hosts_reachable.
  - reflexivity.
Defined.

(** X5.  The registered names follow the calls.  After [RegisterHost] the
    name is listed by [Hosts], with the counter 0 in [GetLoads] if it was
    not registered before; after [UnregisterHost] the name is not listed;
    and neither call changes whether another name is listed or what its
    counter is. *)
Theorem registration_membership (c : Consistent) (hostName other : string) :
  let c1 := (RegisterHost c hostName).1 in
  let c2 := (UnregisterHost c hostName).1 in
  hostName ∈ (Hosts c1).2
  ∧ (hosts c !! hostName = None → (GetLoads c1).2 !! hostName = Some 0)
  ∧ (hostName ∉ (Hosts c2).2)
  ∧ (other ≠ hostName →
     (GetLoads c1).2 !! other = (GetLoads c).2 !! other
     ∧ (GetLoads c2).2 !! other = (GetLoads c).2 !! other
     ∧ (other ∈ (Hosts c1).2 ↔ other ∈ (Hosts c).2)
     ∧ (other ∈ (Hosts c2).2 ↔ other ∈ (Hosts c).2)).
Proof.
  intros c1 c2.
  assert (H1 : hosts c1 = match hosts c !! hostName with
                          | Some _ => hosts c
                          | None => <[hostName := mkHost hostName 0]> (hosts c)
                          end).
  { unfold c1. destruct (hosts c !! hostName) as [h|] eqn:Hh.
    - rewrite RegisterHost_known by eauto. done.
    - rewrite RegisterHost_fresh by done. done. }
  assert (H2 : hosts c2 = delete hostName (hosts c)).
  { unfold c2, UnregisterHost. destruct (hosts c !! hostName) as [h|] eqn:Hh.
    - destruct (UnregisterHost_loop_frame hostName
                  (seqZ 0 (replicaNum (set_hosts (delete hostName (hosts c)) c)))
                  (set_hosts (delete hostName (hosts c)) c)) as [ring' ->]. done.
    - cbn. by rewrite delete_id. }
  unfold Hosts, GetLoads. cbn [snd]. rewrite !elem_of_keys, !elem_of_dom.
  rewrite !lookup_fmap, H1, H2.
  split; [|split; [|split]].
  - destruct (hosts c !! hostName) as [h|] eqn:Hh; [by rewrite Hh|].
    rewrite lookup_insert_eq. eauto.
  - intros ->. by rewrite lookup_insert_eq.
  - rewrite lookup_delete_eq. by intros [? ?].
  - intros Hne. rewrite !lookup_delete_ne by done.
    destruct (hosts c !! hostName); [done|].
    rewrite !lookup_insert_ne by done. done.
Qed.

Lemma registration_membership_witness :
  let c1 := (RegisterHost three_hosts "d").1 in
  let c2 := (UnregisterHost three_hosts "d").1 in
  (GetLoads c1).2 !! "d" = Some 0
  ∧ ((GetLoads c1).2 !! "a" = (GetLoads three_hosts).2 !! "a"
     ∧ (GetLoads c2).2 !! "a" = (GetLoads three_hosts).2 !! "a"
     ∧ ("a" ∈ (Hosts c1).2 ↔ "a" ∈ (Hosts three_hosts).2)
     ∧ ("a" ∈ (Hosts c2).2 ↔ "a" ∈ (Hosts three_hosts).2)).
Proof.
  destruct (registration_membership three_hosts "d" "a") as (_ & Hzero & _ & Hother).
  split.
  - apply Hzero. reflexivity.
  - apply Hother. discriminate.
Defined.

(** * Rebalancing *)

Lemma replicaHashes_nonempty (c : Consistent) (hostName : string) :
  0 < replicaNum c → replicaHashes c hostName ≠ [].
Proof.
  intros Hr Hnil. pose proof (replicaHashes_length c hostName) as Hlen.
  rewrite Hnil in Hlen. unfold len in Hlen. cbn in Hlen. lia.
Qed.

(** X6.  Registering a host moves keys only to that host: on a reachable
    state, after [RegisterHost] of a name that was not registered,
    [GetHost] returns for every key either the new host or what it returned
    before the registration (on an empty ring, where it panicked before, it
    returns the new host). *)
Theorem RegisterHost_moves_keys_to_new_host_only
    (c : Consistent) (hostName key : string) :
  reachable c →
  hosts c !! hostName = None →
  let c1 := (RegisterHost c hostName).1 in
  (GetHost c1 key).2 = Ok hostName
  ∨ (GetHost c1 key).2 = (GetHost c key).2.
Proof.
  intros Hreach Hfresh c1.
  pose proof (reachable_ring_inv c Hreach) as (Hs & _ & _ & Hr).
  set (hs := replicaHashes c hostName).
  assert (Hc1 : hashFunc c1 = hashFunc c
                ∧ virt2host c1 = foldl (λ m v, <[v := hostName]> m) (virt2host c) hs
                ∧ ring c1 = sort_Slice (ring c ++ hs)).
  { unfold c1. by rewrite RegisterHost_fresh. }
  destruct Hc1 as (Hhash & Hmap & Hring).
  assert (Hs1 : Sorted Z.le (ring c1)) by (rewrite Hring; apply sort_Slice_Sorted).
  assert (Helem : ∀ w, w ∈ ring c1 ↔ w ∈ ring c ∨ w ∈ hs).
  { intros w. by rewrite Hring, sort_Slice_Permutation, elem_of_app. }
  assert (Hne1 : ring c1 ≠ []).
  { intros Hnil. destruct hs as [|x hs'] eqn:Hhs.
    - by apply (replicaHashes_nonempty c hostName Hr).
    - assert (Hx : x ∈ ring c1) by (apply Helem; right; apply list_elem_of_here).
      rewrite Hnil in Hx. by apply elem_of_nil in Hx. }
  destruct (GetHost_value c1 key Hne1 Hs1) as (v1 & Hsucc1 & Hget1).
  rewrite Hhash in Hsucc1. rewrite Hget1, Hmap. cbn [snd].
  destruct (decide (v1 ∈ hs)) as [Hin|Hout].
  - left. by rewrite foldl_insert_in.
  - right. rewrite foldl_insert_notin by done.
    assert (Hv1 : v1 ∈ ring c).
    { destruct Hsucc1 as [Hv _]. apply Helem in Hv as [Hv|Hv]; done. }
    assert (Hne : ring c ≠ []) by (intros Hnil; rewrite Hnil in Hv1; by apply elem_of_nil in Hv1).
    destruct (GetHost_value c key Hne Hs) as (v & Hsucc & ->). cbn [snd].
    assert (v = v1) as ->; [|done].
    apply (is_successor_unique (ring c) (hashFunc c key)); [done|].
    apply (is_successor_sub (ring c) (ring c1)); [|done..].
    intros w Hw. apply Helem. by left.
Qed.

Lemma RegisterHost_moves_keys_to_new_host_only_witness :
  let c1 := (RegisterHost three_hosts "d").1 in
  ((GetHost c1 "c1").2 = Ok "d" ∨ (GetHost c1 "c1").2 = (GetHost three_hosts "c1").2)
  ∧ (GetHost three_hosts "c1").2 = Ok "a"
  ∧ (GetHost c1 "c1").2 = Ok "d".
Proof.
  split; [|split; by vm_compute].
  apply RegisterHost_moves_keys_to_new_host_only.
  - exact three_hosts_reachable.
  - reflexivity.
Defined.

(** X7.  Unregistering a host leaves every other key where it was: on a
    reachable state, if the ring entry that [GetHost] lands on for a key is
    not one of the virtual-node hashes of the host, then after
    [UnregisterHost] of that host [GetHost] returns for that key what it
    returned before. *)
Theorem UnregisterHost_keeps_other_keys
    (c : Consistent) (hostName key : string) (v : Z) :
  reachable c →
  ring c !! successor (ring c) (hashFunc c key) = Some v →
  v ∉ replicaHashes c hostName →
  GetHost (UnregisterHost c hostName).1 key
  = ((UnregisterHost c hostName).1, (GetHost c key).2).
Proof.
  intros Hreach Hv Hout.
  pose proof (reachable_ring_inv c Hreach) as Hinv.
  pose proof Hinv as (Hs & _).
  assert (Hne : ring c ≠ []) by (intros Hnil; by rewrite Hnil in Hv).
  destruct (successor_value (ring c) (hashFunc c key) Hne Hs) as (v' & Hv' & Hsucc).
  assert (v' = v) as -> by congruence.
  destruct (GetHost_value c key Hne Hs) as (v0 & Hsucc0 & Hget).
  assert (v0 = v) as -> by (by eapply is_successor_unique).
  rewrite Hget. cbn [snd].
  destruct (hosts c !! hostName) as [h|] eqn:Hh.
  - destruct (UnregisterHost_registered c hostName h Hinv Hh)
      as (ring' & -> & Hs' & Hp).
    cbn [fst]. set (c' := set_ring ring' _).
    assert (Hin : v ∈ ring').
    { destruct Hsucc as [Hvin _]. rewrite Hp in Hvin.
      apply elem_of_app in Hvin as [?|?]; done. }
    assert (Hne' : ring c' ≠ [])
      by (intros Hnil; cbn in Hnil; rewrite Hnil in Hin; by apply elem_of_nil in Hin).
    destruct (GetHost_value c' key Hne' Hs') as (v1 & Hsucc1 & ->).
    assert (v1 = v) as ->; [|done].
    apply (is_successor_unique ring' (hashFunc c key)); [done|].
    apply (is_successor_sub ring' (ring c)); [|done..].
    intros w Hw. rewrite Hp. apply elem_of_app. by right.
  - unfold UnregisterHost. rewrite Hh. cbn [fst]. by rewrite Hget.
Qed.

Lemma UnregisterHost_keeps_other_keys_witness :
  GetHost (UnregisterHost three_hosts "b").1 "c0"
  = ((UnregisterHost three_hosts "b").1, (GetHost three_hosts "c0").2)
  ∧ (GetHost three_hosts "c0").2 = Ok "c".
Proof.
  split; [|by vm_compute].
  apply (UnregisterHost_keeps_other_keys three_hosts "b" "c0" (byte_sum "c0")).
  - exact three_hosts_reachable.
  - by vm_compute.
  - intros Hin. vm_compute in Hin.
    apply (proj1 (list_elem_of_In _ _)) in Hin. 
    destruct Hin as [Heq|[]]. discriminate Heq.
Defined.

(** X8.  A host owns its own virtual nodes: after [RegisterHost] of a
    name that was not registered, [GetHost] on the string
    [hostName || i], for [i] in [0, replicaNum), returns that host. *)
Theorem GetHost_own_virtual_node (c : Consistent) (hostName : string) (i : Z) :
  hosts c !! hostName = None →
  0 ≤ i < replicaNum c →
  let c1 := (RegisterHost c hostName).1 in
  GetHost c1 (hostReplicaFormat hostName i) = (c1, Ok hostName).
Proof.
  intros Hfresh Hi c1.
  set (hs := replicaHashes c hostName).
  assert (Hc1 : hashFunc c1 = hashFunc c
                ∧ virt2host c1 = foldl (λ m v, <[v := hostName]> m) (virt2host c) hs
                ∧ ring c1 = sort_Slice (ring c ++ hs)).
  { unfold c1. by rewrite RegisterHost_fresh. }
  destruct Hc1 as (Hhash & Hmap & Hring).
  set (h := hashFunc c (hostReplicaFormat hostName i)).
  assert (Hh : h ∈ hs).
  { unfold hs, replicaHashes. apply list_elem_of_fmap. exists i. split; [done|].
    apply elem_of_seqZ. lia. }
  assert (Hs1 : Sorted Z.le (ring c1)) by (rewrite Hring; apply sort_Slice_Sorted).
  assert (Hin : h ∈ ring c1).
  { rewrite Hring, sort_Slice_Permutation. apply elem_of_app. by right. }
  assert (Hne1 : ring c1 ≠ [])
    by (intros Hnil; rewrite Hnil in Hin; by apply elem_of_nil in Hin).
  destruct (GetHost_value c1 (hostReplicaFormat hostName i) Hne1 Hs1)
    as (v & Hsucc & ->).
  rewrite Hhash in Hsucc. fold h in Hsucc.
  assert (v = h) as ->.
  { destruct Hsucc as [Hv [[Hge Hmin]|[Hall _]]].
    - specialize (Hmin h Hin). lia.
    - specialize (Hall h Hin). lia. }
  by rewrite Hmap, foldl_insert_in.
Qed.

Lemma GetHost_own_virtual_node_witness :
  let c1 := (RegisterHost three_hosts "d").1 in
  GetHost c1 (hostReplicaFormat "d" 0) = (c1, Ok "d").
Proof.
  apply GetHost_own_virtual_node.
  - reflexivity.
  - by vm_compute.
Defined.

(** On a ring that is not empty [searchKey] gives an index of the ring,
    so [GetHost] reads inside it. *)
Lemma GetHost_returns (c : Consistent) (key : string) :
  ring c ≠ [] →
  ∃ host, GetHost c key = (c, Ok host).
Proof.
  intros Hne. unfold GetHost.
  destruct (searchKey_total c (hashFunc c key)) as (idx & -> & Hidx0 & Hidx).
  specialize (Hidx Hne).
  destruct (index_in_range (ring c) idx) as (v & _ & Hv); [lia|].
  cbn [mbind result_mbind result_bind]. rewrite Hv. eauto.
Qed.

(** X9.  [GetHost] returns whenever the ring is not empty.  On every such
    state, sorted or not, and for every key, it returns a host name with a
    nil error and leaves the state as it is: it neither panics nor returns
    an error. *)
Theorem GetHost_total (c : Consistent) (key : string) :
  ring c ≠ [] →
  ∃ host, GetHost c key = (c, Ok host).
Proof. apply GetHost_returns. Qed.

Lemma GetHost_total_witness :
  ∃ host, GetHost (set_ring [30; 10; 20] three_hosts) "k"
          = (set_ring [30; 10; 20] three_hosts, Ok host).
Proof. apply GetHost_total. discriminate. Defined.

(** * The walk, step by step *)










(** * [MaxLoad] *)

Lemma int64_of_float64_Ceil (x : Q) : int64_of_float64 (math_Ceil x) = Qceiling x.
Proof.
  unfold int64_of_float64, math_Ceil.
  destruct (Qle_bool 0 (inject_Z (Qceiling x))); [apply Qfloor_Z|apply Qceiling_Z].
Qed.

Lemma MaxLoad_registered (c : Consistent) :
  hosts c ≠ ∅ →
  0 ≤ totalLoad c < 2 ^ 63 →
  MaxLoad c
  = (if totalLoad c =? 0 then set_totalLoad 1 c else c,
     Ok (capacity (totalLoad c - 1) (Z.of_nat (size (hosts c))))).
Proof.
  intros Hne Ht. unfold MaxLoad. f_equal.
  set (c' := if totalLoad c =? 0 then set_totalLoad 1 c else c).
  assert (Hc' : hosts c' = hosts c ∧ totalLoad c' = Z.max (totalLoad c - 1) 0 + 1).
  { unfold c'. destruct (Z.eqb_spec (totalLoad c) 0) as [Hz|Hnz]; cbn; split; (done || lia). }
  destruct Hc' as [-> ->].
  assert (Hsize : size (hosts c) ≠ 0%nat) by (by apply map_size_non_empty_iff).
  unfold divInt64.
  replace (Z.of_nat (size (hosts c)) =? 0) with false
    by (symmetry; apply Z.eqb_neq; lia).
  cbn [mbind result_mbind result_bind].
  set (n := Z.of_nat (size (hosts c))).
  set (x := Z.max (totalLoad c - 1) 0 + 1).
  assert (Hq : 0 ≤ x ÷ n ≤ x).
  { split; [apply Z.quot_pos; lia|].
    rewrite Z.quot_div_nonneg by lia.
    apply Z.div_le_upper_bound; [lia|]. nia. }
  rewrite wrap64_small by lia.
  unfold float64_of_int64. rewrite Qeq_bool_inject_Z, int64_of_float64_Ceil.
  unfold capacity. fold x. by destruct (x ÷ n =? 0).
Qed.

(** X12.  [MaxLoad] on an instance without hosts panics, dividing by
    zero.  With a host registered and [totalLoad] not negative and below
    2^50, the range on which the [float64] arithmetic of the code is
    exact, it returns [ceil(avg * (1 + LoadBoundFactor))] for [avg] the
    integer quotient of [totalLoad], 1 in place of 0, by the number of
    hosts, 1 in place of a quotient 0: the threshold the capacity check
    applies when [totalLoad] is one less. *)
Theorem MaxLoad_value (c : Consistent) :
  (hosts c = ∅ → (MaxLoad c).2 = Panics DivideByZero)
  ∧ (hosts c ≠ ∅ → 0 ≤ totalLoad c → exact_range (totalLoad c) →
     let hostCount := Z.of_nat (size (hosts c)) in
     let q := (if totalLoad c =? 0 then 1 else totalLoad c) ÷ hostCount in
     (MaxLoad c).2 = Ok ((5 * (if q =? 0 then 1 else q) + 3) / 4)
     ∧ (MaxLoad c).2 = Ok (capacity (totalLoad c - 1) hostCount)).
Proof.
  split.
  - intros Hempty. unfold MaxLoad. cbn [snd].
    replace (hosts (if totalLoad c =? 0 then set_totalLoad 1 c else c)) with (hosts c)
      by (by destruct (totalLoad c =? 0)).
    by rewrite Hempty.
  - intros Hne H0 Ht hostCount q. unfold exact_range in Ht.
    rewrite MaxLoad_registered by (done || lia). cbn [snd]. split; [|done].
    f_equal. rewrite capacity_closed. cbn zeta. fold hostCount.
    replace (Z.max (totalLoad c - 1) 0 + 1)
      with (if totalLoad c =? 0 then 1 else totalLoad c)
      by (destruct (Z.eqb_spec (totalLoad c) 0); lia).
    done.
Qed.

Lemma MaxLoad_value_witness :
  let c := UpdateLoad (UpdateLoad (UpdateLoad four_hosts "a" 2) "b" 2) "c" 2 in
  (MaxLoad c).2 = Ok ((5 * 1 + 3) / 4)
  ∧ (MaxLoad c).2 = Ok (capacity 5 4)
  ∧ (MaxLoad (New zero_digest 10 None)).2 = Panics DivideByZero.
Proof.
  intros c.
  destruct (MaxLoad_value c) as [_ Hval].
  destruct Hval as [H1 H2].
  - intros He. assert (Hs : size (hosts c) = 0%nat) by (by rewrite He).
    by vm_compute in Hs.
  - by vm_compute.
  - unfold exact_range. by vm_compute.
  - split; [exact H1|]. split; [exact H2|].
    apply (MaxLoad_value (New zero_digest 10 None)). reflexivity.
Defined.

(** X13.  Right after an assignment the assigned host is within
    [MaxLoad].  Let [totalLoad] and the counter of the host in question be
    below 2^50 in magnitude, the range on which the [float64] arithmetic
    of the code is exact.  When [GetHostCapacious] returns that host and
    [Inc] is called on it, [Inc] succeeds, and in the state it leaves
    [MaxLoad] returns a value that is at least the counter of that host,
    without changing the state. *)
Theorem assigned_host_within_MaxLoad
    (fuel : nat) (c : Consistent) (key : string) (c1 : Consistent) (host : string) :
  exact_range (totalLoad c) →
  (∀ h, hosts c !! host = Some h → exact_range (LoadBound h)) →
  GetHostCapacious fuel c key = (c1, Ok host) →
  let c2 := (Inc c1 host).1 in
  (Inc c1 host).2 = Ok tt
  ∧ ∃ l m, loadOf c2 host = Some l
           ∧ MaxLoad c2 = (c2, Ok m)
           ∧ l ≤ m.
Proof.
  unfold exact_range. intros Ht Hl Hrun.
  apply GetHostCapacious_Ok in Hrun as (-> & h & Hh & Hcap); [|lia].
  specialize (Hl h Hh).
  destruct (clamped_fields c) as (HT & HH & _).
  rewrite (Inc_registered (clamped c) host h) by (by rewrite HH).
  cbn [fst snd]. split; [done|].
  rewrite HT, HH, !addInt64_small by lia.
  set (c2 := mkConsistent _ _ _ _ _ _).
  exists (LoadBound h + 1), (capacity (totalLoad c) (Z.of_nat (size (hosts c)))).
  split; [|split; [|done]].
  - unfold loadOf, c2. cbn [hosts]. by rewrite lookup_insert_eq.
  - assert (Hsize : size (hosts c2) = size (hosts c)).
    { unfold c2. cbn [hosts]. by eapply map_size_insert_Some. }
    rewrite MaxLoad_registered.
    + unfold c2 at 1 2. cbn [totalLoad].
      replace (Z.max (totalLoad c) 0 + 1 =? 0) with false
        by (symmetry; apply Z.eqb_neq; lia).
      f_equal. f_equal. rewrite Hsize. unfold c2. cbn [totalLoad].
      replace (Z.max (totalLoad c) 0 + 1 - 1) with (Z.max (totalLoad c) 0) by lia.
      unfold capacity.
      by replace (Z.max (Z.max (totalLoad c) 0) 0) with (Z.max (totalLoad c) 0) by lia.
    + unfold c2. cbn [hosts]. apply insert_non_empty.
    + unfold c2. cbn [totalLoad]. lia.
Qed.

Lemma assigned_host_within_MaxLoad_witness :
  let c2 := (Inc (GetHostCapacious 3 three_hosts "k").1 "a").1 in
  (Inc (GetHostCapacious 3 three_hosts "k").1 "a").2 = Ok tt
  ∧ ∃ l m, loadOf c2 "a" = Some l ∧ MaxLoad c2 = (c2, Ok m) ∧ l ≤ m.
Proof.
  apply (assigned_host_within_MaxLoad 3 three_hosts "k").
  - unfold exact_range. by vm_compute.
  - intros h Hh. vm_compute in Hh. injection Hh as <-.
    unfold exact_range. by vm_compute.
  - by vm_compute.
Defined.

(** * Load accounting, continued *)

Lemma UnregisterHost_total_and_sum (c : Consistent) (hostName : string) (h : Host) :
  hosts c !! hostName = Some h →
  totalLoad (UnregisterHost c hostName).1 = totalLoad c
  ∧ sumLoads (UnregisterHost c hostName).1 = sumLoads c - LoadBound h.
Proof.
  intros Hh. split; [apply UnregisterHost_frame|].
  rewrite <- (sumLoads_delete c hostName h Hh).
  unfold UnregisterHost. rewrite Hh.
  destruct (UnregisterHost_loop_frame hostName
              (seqZ 0 (replicaNum (set_hosts (delete hostName (hosts c)) c)))
              (set_hosts (delete hostName (hosts c)) c)) as [ring' ->].
  done.
Qed.

Lemma Done_registered (c : Consistent) (host : string) (h : Host) :
  hosts c !! host = Some h →
  Done c host
  = mkConsistent (replicaNum c) (addInt64 (totalLoad c) (-1)) (hashFunc c)
      (<[host := mkHost (Name h) (addInt64 (LoadBound h) (-1))]> (hosts c))
      (virt2host c) (ring c).
Proof. intros Hh. unfold Done. by rewrite Hh. Qed.

Lemma Inc_then_Done (c : Consistent) (hostName : string) (h : Host) :
  hosts c !! hostName = Some h →
  exact_range (totalLoad c) →
  exact_range (LoadBound h) →
  (Inc c hostName).2 = Ok tt
  ∧ Done (Inc c hostName).1 hostName = c
  ∧ Inc (Done c hostName) hostName = (c, Ok tt).
Proof.
  unfold exact_range. intros Hh Ht Hl.
  assert (Hid : <[hostName := mkHost (Name h) (LoadBound h)]> (hosts c) = hosts c).
  { apply insert_id. rewrite Hh. by destruct h. }
  rewrite (Inc_registered c hostName h Hh). cbn [fst snd].
  split; [done|]. split.
  - erewrite Done_registered by (cbn [hosts]; apply lookup_insert_eq).
    cbn [replicaNum totalLoad hashFunc hosts virt2host ring Name LoadBound].
    rewrite insert_insert_eq, !addInt64_small by (rewrite ?addInt64_small; lia).
    replace (LoadBound h + 1 + -1) with (LoadBound h) by lia.
    replace (totalLoad c + 1 + -1) with (totalLoad c) by lia.
    rewrite Hid. by destruct c.
  - rewrite (Done_registered c hostName h Hh).
    erewrite Inc_registered by (cbn [hosts]; apply lookup_insert_eq).
    cbn [replicaNum totalLoad hashFunc hosts virt2host ring Name LoadBound].
    rewrite insert_insert_eq, !addInt64_small by (rewrite ?addInt64_small; lia).
    replace (LoadBound h + -1 + 1) with (LoadBound h) by lia.
    replace (totalLoad c + -1 + 1) with (totalLoad c) by lia.
    rewrite Hid. by destruct c.
Qed.

(** X14.  A reservation and its release cancel: for a registered host
    with counters in range, [Done] after [Inc] gives back the state [Inc]
    started from, and so does [Inc] after [Done]. *)
Theorem Inc_Done_round_trip (c : Consistent) (hostName : string) (h : Host) :
  hosts c !! hostName = Some h →
  exact_range (totalLoad c) →
  exact_range (LoadBound h) →
  (Inc c hostName).2 = Ok tt
  ∧ Done (Inc c hostName).1 hostName = c
  ∧ Inc (Done c hostName) hostName = (c, Ok tt).
Proof. apply Inc_then_Done. Qed.

Lemma Inc_Done_round_trip_witness :
  (Inc three_hosts "a").2 = Ok tt
  ∧ Done (Inc three_hosts "a").1 "a" = three_hosts
  ∧ Inc (Done three_hosts "a") "a" = (three_hosts, Ok tt).
Proof.
  apply (Inc_Done_round_trip three_hosts "a" (mkHost "a" 0)).
  - reflexivity.
  - unfold exact_range. by vm_compute.
  - unfold exact_range. by vm_compute.
Defined.

(** What a call needs for [totalLoad] to stay the sum of the counters:
    [UnregisterHost] an idle or unknown host, [MaxLoad] a [totalLoad] other
    than 0, [GetHostCapacious] a [totalLoad] that is not negative, and
    [UpdateLoad] a load in range. *)
Definition conserving (c : Consistent) (k : call) : Prop :=
  match k with
  | CallUnregisterHost hostName =>
      ∀ h, hosts c !! hostName = Some h → LoadBound h = 0
  | CallMaxLoad => totalLoad c ≠ 0
  | CallGetHostCapacious _ _ => 0 ≤ totalLoad c
  | CallUpdateLoad _ load => exact_range load
  | _ => True
  end.

(** X15.  Load conservation.  If [totalLoad] is the sum of the counters
    of the registered hosts, with all counters in range, it still is after
    any call of [RegisterHost], [Inc], [Done], [UpdateLoad], [Hosts],
    [GetHost] and [GetLoads], after [UnregisterHost] of a host with counter
    0 or of an unknown name, after [MaxLoad] unless [totalLoad] is 0, and
    after [GetHostCapacious] unless [totalLoad] is negative. *)
Theorem load_conservation (c : Consistent) (k : call) :
  totalLoad c = sumLoads c →
  exact_range (totalLoad c) →
  (∀ host h, hosts c !! host = Some h → exact_range (LoadBound h)) →
  conserving c k →
  totalLoad (after c k) = sumLoads (after c k).
Proof.
  intros Heq Ht Hl Hk.
  destruct k as [hostName|hostName|host load| |key|fuel key|hostName|host| |];
    cbn [after conserving] in *; try done.
  - by apply RegisterHost_conserves.
  - destruct (hosts c !! hostName) as [h|] eqn:Hh.
    + destruct (UnregisterHost_total_and_sum c hostName h Hh) as [-> ->].
      rewrite (Hk h eq_refl). lia.
    + unfold UnregisterHost. by rewrite Hh.
  - apply UpdateLoad_conserves; try done. intros h. apply Hl.
  - destruct (GetHostCapacious_state fuel c key) as [->| ->]; [done|].
    unfold clamped. by replace (totalLoad c <? 0) with false
      by (symmetry; apply Z.ltb_ge; lia).
  - destruct (hosts c !! hostName) as [h|] eqn:Hh.
    + by apply (Inc_conserves c hostName h); [|done|apply (Hl hostName)|].
    + unfold Inc. by rewrite Hh.
  - apply Done_conserves; try done. intros h. apply Hl.
  - unfold MaxLoad. cbn [fst].
    by replace (totalLoad c =? 0) with false by (symmetry; by apply Z.eqb_neq).
Qed.

Lemma load_conservation_witness :
  totalLoad (after three_hosts (CallInc "a"))
  = sumLoads (after three_hosts (CallInc "a"))
  ∧ totalLoad (after three_hosts (CallUpdateLoad "b" 7))
    = sumLoads (after three_hosts (CallUpdateLoad "b" 7)).
Proof.
  assert (Heq : totalLoad three_hosts = sumLoads three_hosts) by (by vm_compute).
  assert (Ht : exact_range (totalLoad three_hosts))
    by (unfold exact_range; by vm_compute).
  assert (Hl : ∀ host h, hosts three_hosts !! host = Some h
                         → exact_range (LoadBound h)).
  { assert (Hall : map_Forall (λ (_ : string) h, exact_range (LoadBound h))
                     (hosts three_hosts)).
    { unfold exact_range. apply (bool_decide_unpack _). by vm_compute. }
    intros host h Hh. exact (Hall host h Hh). }
  split.
  - apply load_conservation; [exact Heq|exact Ht|exact Hl|exact I].
  - apply load_conservation; [exact Heq|exact Ht|exact Hl|].
    unfold conserving, exact_range. by vm_compute.
Defined.

(** * The router, [proxy/proxy.go]

    [http.Get] belongs to the Go library and to the network: the function
    that answers a request is a parameter.  A call of the router is
    described by the state of the instance it leaves, the requests it has
    sent, the releases [Done(host)] it has scheduled with [time.AfterFunc]
    (the ten seconds of delay are not modelled: a scheduled release is run
    by calling [Done]), and its outcome.  The lines it prints are left
    out. *)

Inductive http_response : Type :=
| HttpBody (body : string)
| HttpError (msg : string).

Inductive outcome : Type :=
| Replied (body : string)
| Failed (e : error)
| TransportFailed (msg : string)
| Panicked (p : panic)
| Unfinished.

Record routed : Type := mkRouted {
  state : Consistent;
  requests : list string;
  timers : list string;
  out : outcome
}.

Module proxy.
Section WithHttp.

Variable http_Get : string → http_response.

(** [fmt.Sprintf("http://%s?key=%s", host, key)] *)
Definition url (host key : string) : string :=
  "http://" +:+ host +:+ "?key=" +:+ key.

Definition forward (host key : string) : outcome :=
  match http_Get (url host key) with
  | HttpBody body => Replied body
  | HttpError msg => TransportFailed msg
  end.

Definition unforwarded (c : Consistent) (r : result string) : routed :=
  mkRouted c [] []
    match r with
    | Ok _ => Unfinished
    | Error e => Failed e
    | Panics p => Panicked p
    | OutOfFuel => Unfinished
    end.

Definition GetHost (c : Consistent) (key : string) : routed :=
  match GetHost c key with
  | (c, Ok host) => mkRouted c [url host key] [] (forward host key)
  | (c, r) => unforwarded c r
  end.

Definition GetHostCapacious (fuel : nat) (c : Consistent) (key : string) : routed :=
  match GetHostCapacious fuel c key with
  | (c, Ok host) =>
      match Inc c host with
      | (c, Ok _) => mkRouted c [url host key] [host] (forward host key)
      | (c, Error e) => mkRouted c [] [] (Failed e)
      | (c, Panics p) => mkRouted c [] [] (Panicked p)
      | (c, OutOfFuel) => mkRouted c [] [] Unfinished
      end
  | (c, r) => unforwarded c r
  end.

Definition RegisterHost (c : Consistent) (host : string) : Consistent * result unit :=
  RegisterHost c host.

Definition UnregisterHost (c : Consistent) (host : string) : Consistent * result unit :=
  UnregisterHost c host.

End WithHttp.
End proxy.

(** X16.  A request routed with load bound holds one reservation, which
    its timer releases, whatever the request answers.  Let every counter
    be below 2^50 in magnitude.  The state [Proxy.GetHostCapacious] leaves
    and the releases it schedules do not depend on what [http.Get]
    answers, and running the scheduled releases gives back the state the
    lookup left.  When the lookup returns a host, the router's [Inc] on it
    does not fail and the state is the one [Inc] leaves: the counter of the
    host is one higher and [totalLoad] is one more than it was, a negative
    value counting as 0; one request, to that host, and one release, for
    that host, are recorded, and the outcome is the answer to the request,
    be it a body or a transport error.  When the lookup returns no host,
    nothing is sent or scheduled, the state is the one the lookup left,
    and the registered hosts and their counters are as before. *)
Theorem Proxy_GetHostCapacious_reserves
    (http_Get : string → http_response)
    (fuel : nat) (c : Consistent) (key : string) :
  exact_range (totalLoad c) →
  (∀ host h, hosts c !! host = Some h → exact_range (LoadBound h)) →
  let s := proxy.GetHostCapacious http_Get fuel c key in
  let c1 := (GetHostCapacious fuel c key).1 in
  (∀ http_Get',
     state (proxy.GetHostCapacious http_Get' fuel c key) = state s
     ∧ timers (proxy.GetHostCapacious http_Get' fuel c key) = timers s)
  ∧ foldl Done (state s) (timers s) = c1
  ∧ match (GetHostCapacious fuel c key).2 with
    | Ok host =>
        (Inc c1 host).2 = Ok tt
        ∧ state s = (Inc c1 host).1
        ∧ requests s = [proxy.url host key]
        ∧ timers s = [host]
        ∧ out s = proxy.forward http_Get host key
        ∧ (∃ l, loadOf c host = Some l ∧ loadOf (state s) host = Some (l + 1))
        ∧ totalLoad (state s) = Z.max (totalLoad c) 0 + 1
        ∧ Done (state s) host = c1
    | _ =>
        requests s = [] ∧ timers s = []
        ∧ state s = c1
        ∧ hosts (state s) = hosts c
    end.
Proof.
  intros Ht Hl s c1. unfold s, c1, proxy.GetHostCapacious.
  destruct (GetHostCapacious fuel c key) as [c0 r] eqn:Hrun. cbn [snd fst].
  assert (Hhosts : hosts c0 = hosts c).
  { pose proof (GetHostCapacious_state fuel c key) as Hst. rewrite Hrun in Hst.
    cbn in Hst. destruct Hst as [->| ->]; [done|].
    by destruct (clamped_fields c) as (_ & -> & _). }
  destruct r as [host|e|p|]; try done.
  unfold exact_range in Ht.
  apply GetHostCapacious_Ok in Hrun as (-> & h & Hh & Hcap); [|lia].
  destruct (clamped_fields c) as (HT & HH & _).
  assert (Hh' : hosts (clamped c) !! host = Some h) by (by rewrite HH).
  pose proof (Hl host h Hh) as Hlh. unfold exact_range in Hlh.
  destruct (Inc_then_Done (clamped c) host h Hh') as (Hinc & Hdone & _);
    [unfold exact_range; lia|done|].
  destruct (Inc (clamped c) host) as [c2 r2] eqn:HInc. cbn in Hinc, Hdone.
  subst r2. cbn [requests timers out state fst snd foldl].
  repeat split; try done.
  - exists (LoadBound h). unfold loadOf. rewrite Hh. split; [done|].
    rewrite (Inc_registered (clamped c) host h Hh') in HInc.
    injection HInc as <-. cbn [hosts].
    rewrite lookup_insert_eq. cbn. by rewrite addInt64_small by lia.
  - rewrite (Inc_registered (clamped c) host h Hh') in HInc.
    injection HInc as <-. cbn [totalLoad]. rewrite HT, addInt64_small; lia.
Qed.

Lemma Proxy_GetHostCapacious_reserves_witness :
  let refused := λ _, HttpError "connection refused" in
  let s := proxy.GetHostCapacious refused 3 three_hosts "k" in
  let c1 := (GetHostCapacious 3 three_hosts "k").1 in
  (∀ http_Get',
     state (proxy.GetHostCapacious http_Get' 3 three_hosts "k") = state s
     ∧ timers (proxy.GetHostCapacious http_Get' 3 three_hosts "k") = timers s)
  ∧ foldl Done (state s) (timers s) = c1
  ∧ (Inc c1 "a").2 = Ok tt
  ∧ state s = (Inc c1 "a").1
  ∧ requests s = ["http://a?key=k"]
  ∧ timers s = ["a"]
  ∧ out s = TransportFailed "connection refused"
  ∧ (∃ l, loadOf three_hosts "a" = Some l ∧ loadOf (state s) "a" = Some (l + 1))
  ∧ totalLoad (state s) = Z.max (totalLoad three_hosts) 0 + 1
  ∧ Done (state s) "a" = c1.
Proof.
  intros refused s c1.
  assert (Ht : exact_range (totalLoad three_hosts))
    by (unfold exact_range; by vm_compute).
  assert (Hl : ∀ host h, hosts three_hosts !! host = Some h
                         → exact_range (LoadBound h)).
  { assert (Hall : map_Forall (λ (_ : string) h, exact_range (LoadBound h))
                     (hosts three_hosts)).
    { unfold exact_range. apply (bool_decide_unpack _). by vm_compute. }
    intros host h Hh. exact (Hall host h Hh). }
  exact (Proxy_GetHostCapacious_reserves refused 3 three_hosts "k" Ht Hl).
Defined.

(** X17.  [Proxy.GetHost] does no load accounting.  Whatever the ring, it
    leaves the state of the instance as it is and schedules no release.  On
    a ring that is not empty it sends exactly one request, to the host that
    [GetHost] of the instance returns for the key, and its outcome is the
    answer to that request; on an empty ring it panics before any request
    is sent. *)
Theorem Proxy_GetHost_forwards
    (http_Get : string → http_response) (c : Consistent) (key : string) :
  let s := proxy.GetHost http_Get c key in
  state s = c
  ∧ timers s = []
  ∧ (ring c = [] → requests s = [] ∧ out s = Panicked IndexOutOfRange)
  ∧ (ring c ≠ [] →
     ∃ host, (GetHost c key).2 = Ok host
             ∧ requests s = [proxy.url host key]
             ∧ out s = proxy.forward http_Get host key).
Proof.
  intros s. unfold s, proxy.GetHost.
  destruct (decide (ring c = [])) as [Hnil|Hne].
  - assert (Hget : GetHost c key = (c, Panics IndexOutOfRange)).
    { unfold GetHost. rewrite searchKey_empty by done. by rewrite Hnil. }
    rewrite Hget. cbn. repeat split; done.
  - destruct (GetHost_returns c key Hne) as [host Hget]. rewrite Hget. cbn.
    repeat split; try done. intros _. by exists host.
Qed.

Lemma Proxy_GetHost_forwards_witness :
  let http_Get := λ u, HttpBody ("hello from " +:+ u) in
  let s := proxy.GetHost http_Get three_hosts "k" in
  ∃ host, (GetHost three_hosts "k").2 = Ok host
          ∧ requests s = [proxy.url host "k"]
          ∧ out s = proxy.forward http_Get host "k".
Proof.
  intros http_Get s.
  destruct (Proxy_GetHost_forwards http_Get three_hosts "k") as (_ & _ & _ & Hfwd).
  apply Hfwd. discriminate.
Defined.

(** * Lookups without unregistration *)

(** The states reached without a call of [UnregisterHost]. *)
Inductive grown : Consistent → Prop :=
| grown_New Sum512 r f : grown (New Sum512 r f)
| grown_after c k :
    grown c → (∀ hostName, k ≠ CallUnregisterHost hostName) → grown (after c k).

Lemma grown_reachable (c : Consistent) : grown c → reachable c.
Proof. induction 1; by constructor. Qed.

Lemma foldl_insert_size (hostName : string) (hs : list Z) :
  ∀ m : gmap Z string,
    (size (foldl (λ m v, <[v := hostName]> m) m hs) ≤ size m + length hs)%nat.
Proof.
  induction hs as [|x hs IH]; intros m; cbn [foldl length]; [lia|].
  etrans; [apply IH|].
  destruct (m !! x) eqn:Hx.
  - erewrite map_size_insert_Some by done. lia.
  - rewrite map_size_insert_None by done. lia.
Qed.

(** Without unregistration the hash-to-host map never has more entries
    than the ring. *)
Lemma grown_map_within_ring (c : Consistent) :
  grown c → (size (virt2host c) ≤ length (ring c))%nat.
Proof.
  induction 1 as [Sum512 r f|c k Hc IH Hk]; [done|].
  destruct k as [hostName|hostName|host load| |key|fuel key|hostName|host| |];
    cbn [after]; try done.
  - destruct (hosts c !! hostName) as [h|] eqn:Hh.
    + rewrite RegisterHost_known by eauto. done.
    + rewrite RegisterHost_fresh by done. cbn [fst virt2host ring].
      rewrite (Permutation_length (sort_Slice_Permutation _)), length_app.
      etrans; [apply foldl_insert_size|]. lia.
  - by destruct (Hk hostName).
  - unfold UpdateLoad. by destruct (hosts c !! host).
  - destruct (GetHostCapacious_state fuel c key) as [->| ->]; [done|].
    by destruct (clamped_fields c) as (_ & _ & -> & -> & _).
  - unfold Inc. by destruct (hosts c !! hostName).
  - unfold Done. by destruct (hosts c !! host).
  - unfold MaxLoad. cbn [fst]. by destruct (totalLoad c =? 0).
Qed.

Lemma checkLoadCapacity_no_panic (c : Consistent) (host : string) :
  hosts c ≠ ∅ →
  (∃ b, (checkLoadCapacity c host).2 = Ok b)
  ∨ (checkLoadCapacity c host).2 = Error ErrHostNotFound.
Proof.
  intros Hne. unfold checkLoadCapacity. fold (clamped c). cbn [snd].
  destruct (clamped_fields c) as (_ & -> & _).
  assert (Hsize : size (hosts c) ≠ 0%nat) by (by apply map_size_non_empty_iff).
  unfold divInt64.
  replace (Z.of_nat (size (hosts c)) =? 0) with false
    by (symmetry; apply Z.eqb_neq; lia).
  cbn [mbind result_mbind result_bind].
  destruct (hosts c !! host); [|by right].
  left. destruct (Qle_bool _ _); eauto.
Qed.

Lemma GetHostCapacious_loop_no_panic (fuel : nat) :
  ∀ (c : Consistent) (i : Z) (p : panic),
    hosts c ≠ ∅ →
    (size (virt2host c) ≤ length (ring c))%nat →
    0 ≤ i < len (ring c) →
    (GetHostCapacious_loop fuel c i).2 ≠ Panics p.
Proof.
  induction fuel as [|fuel IH]; intros c i p Hne Hsize Hi; [done|].
  cbn [GetHostCapacious_loop].
  destruct (index_in_range (ring c) i Hi) as (v & _ & ->).
  set (host := default "" (virt2host c !! v)).
  pose proof (checkLoadCapacity_no_panic c host Hne) as Hcheck.
  pose proof (checkLoadCapacity_state c host) as Hst.
  destruct (checkLoadCapacity c host) as [c1 r]. cbn in Hcheck, Hst. subst c1.
  destruct Hcheck as [[b ->]| ->]; [|done].
  destruct b; [done|].
  destruct (clamped_fields c) as (_ & HH & HV & HR & _).
  apply IH.
  - by rewrite HH.
  - by rewrite HV, HR.
  - rewrite HV, HR. unfold len in *.
    destruct (Z.leb_spec (Z.of_nat (size (virt2host c))) (i + 1)); lia.
Qed.

(** X18.  As long as no host has been unregistered, a lookup with load
    bound never panics: on every state reached without [UnregisterHost],
    for every key and every number of iterations, [GetHostCapacious]
    neither indexes outside the ring nor divides by zero. *)
Theorem GetHostCapacious_never_panics_without_unregister
    (fuel : nat) (c : Consistent) (key : string) (p : panic) :
  grown c →
  (GetHostCapacious fuel c key).2 ≠ Panics p.
Proof.
  intros Hgrown.
  pose proof (grown_map_within_ring c Hgrown) as Hsize.
  pose proof (reachable_ring_inv c (grown_reachable c Hgrown)) as (_ & Hperm & _).
  unfold GetHostCapacious.
  destruct (Z.eqb_spec (Z.of_nat (size (virt2host c))) 0) as [Hz|Hnz]; [done|].
  assert (Hring : ring c ≠ []).
  { intros Hnil. rewrite Hnil in Hsize. cbn in Hsize. lia. }
  assert (Hne : hosts c ≠ ∅).
  { intros Hempty. apply Hring. apply Permutation_nil_r. rewrite Hperm.
    unfold virtual_nodes. by rewrite Hempty, map_to_list_empty. }
  destruct (searchKey_total c (hashFunc c key)) as (idx & -> & Hidx0 & Hidx).
  apply GetHostCapacious_loop_no_panic; try done.
  specialize (Hidx Hring). lia.
Qed.

Lemma three_hosts_grown : grown three_hosts.
Proof.
  apply (grown_after _ (CallRegisterHost "c")); [|discriminate].
  apply (grown_after _ (CallRegisterHost "b")); [|discriminate].
  apply (grown_after _ (CallRegisterHost "a")); [|discriminate].
  apply grown_New.
Defined.

Lemma GetHostCapacious_never_panics_without_unregister_witness :
  (GetHostCapacious 3 three_hosts "k").2 ≠ Panics IndexOutOfRange.
Proof.
  apply GetHostCapacious_never_panics_without_unregister.
  exact three_hosts_grown.
Defined.
